(** * LSE rotations: quaternions, rotation vectors, Euler angles and the
      product-manifold state of [include/Rotations.hpp]

    The C++ code works on [double].  Here a [double] is read as a real number
    of the Standard Library ([R]) and every operation as the exact one: no
    rounding, no NaN, no infinities, no signed zero.  [M_PI] is [PI], [floor]
    is [Zfloor], [std::sqrt], [sin], [cos], [tan] are the functions of the
    same name, [asin] is the library's (the arcsine on [[-1, 1]]), and
    [atan2] is defined below from [atan] following the C library's case
    table.  Statements on these definitions are statements in exact real
    arithmetic.  [rangePi], whose bound on the wrapped norm does not survive
    rounding, is modelled a second time on binary64 floats ([Binary64]). *)

From Stdlib Require Import Reals Lra Lia List ZArith Psatz.
From Stdlib Require PrimFloat.
Import ListNotations.
Open Scope R_scope.

(** ** Fixed-size vectors and matrices (the Eigen types of the source) *)

(** [Eigen::Vector3d]; [v(0)], [v(1)], [v(2)] are the three fields. *)
Record Vec3 : Type := V3 { vx : R; vy : R; vz : R }.

(** [Eigen::Vector4d], and so [Quat]: vector part first, scalar part last. *)
Record Quat : Type := Q4 { qx : R; qy : R; qz : R; qw : R }.

(** A dense matrix read by [M(i,j)]; 3x3 and 4x4 matrices use the indices
    below 3 and below 4. *)
Definition Mat : Type := nat -> nat -> R.

Definition v3add (a b : Vec3) : Vec3 := V3 (vx a + vx b) (vy a + vy b) (vz a + vz b).
Definition v3sub (a b : Vec3) : Vec3 := V3 (vx a - vx b) (vy a - vy b) (vz a - vz b).
Definition v3scale (a : Vec3) (k : R) : Vec3 := V3 (vx a * k) (vy a * k) (vz a * k).
Definition v3lscale (k : R) (a : Vec3) : Vec3 := V3 (k * vx a) (k * vy a) (k * vz a).
Definition v3div (a : Vec3) (k : R) : Vec3 := V3 (vx a / k) (vy a / k) (vz a / k).
Definition v3zero : Vec3 := V3 0 0 0.

(** [v.norm()] *)
Definition norm3 (v : Vec3) : R := sqrt (vx v * vx v + vy v * vy v + vz v * vz v).
Definition norm4 (q : Quat) : R :=
  sqrt (qx q * qx q + qy q * qy q + qz q * qz q + qw q * qw q).

(** [q.block(0,0,3,1)] *)
Definition vecPart (q : Quat) : Vec3 := V3 (qx q) (qy q) (qz q).

(** [q(i)] on a 4-vector. *)
Definition qget (q : Quat) (i : nat) : R :=
  match i with
  | 0%nat => qx q
  | 1%nat => qy q
  | 2%nat => qz q
  | _ => qw q
  end.

Definition vget (v : Vec3) (i : nat) : R :=
  match i with
  | 0%nat => vx v
  | 1%nat => vy v
  | _ => vz v
  end.

(** [Matrix::setIdentity()], [setZero()], [M*k]. *)
Definition midentity : Mat := fun i j => if Nat.eqb i j then 1 else 0.
Definition mzero : Mat := fun _ _ => 0.
Definition mscale (M : Mat) (k : R) : Mat := fun i j => M i j * k.

(** Is [(i,j)] inside the block of [h] rows and [w] columns at [(r,c)]? *)
Definition inBlock (r c h w i j : nat) : bool :=
  andb (andb (Nat.leb r i) (Nat.ltb i (r + h)))
       (andb (Nat.leb c j) (Nat.ltb j (c + w))).

(** [M.block(r,c,h,w) = B], [+= B] and [-= B]. *)
Definition blockSet (M : Mat) (r c h w : nat) (B : Mat) : Mat :=
  fun i j => if inBlock r c h w i j then B (i - r)%nat (j - c)%nat else M i j.
Definition blockAdd (M : Mat) (r c h w : nat) (B : Mat) : Mat :=
  fun i j => if inBlock r c h w i j then M i j + B (i - r)%nat (j - c)%nat else M i j.
Definition blockSub (M : Mat) (r c h w : nat) (B : Mat) : Mat :=
  fun i j => if inBlock r c h w i j then M i j - B (i - r)%nat (j - c)%nat else M i j.

(** [M(i,j) = x] *)
Definition mset (M : Mat) (i j : nat) (x : R) : Mat :=
  fun i' j' => if andb (Nat.eqb i' i) (Nat.eqb j' j) then x else M i' j'.

(** [k*M], [A + B], [M.transpose()] and the product [v*w.transpose()] of a
    column by a row. *)
Definition mlscale (k : R) (M : Mat) : Mat := fun i j => k * M i j.
Definition madd (A B : Mat) : Mat := fun i j => A i j + B i j.
Definition mtranspose (M : Mat) : Mat := fun i j => M j i.
Definition outer3 (v w : Vec3) : Mat := fun i j => vget v i * vget w j.

(** A 4-vector as a 4x1 column, and [-q.transpose()] as a 1x4 row. *)
Definition colOf (q : Quat) : Mat := fun i _ => qget q i.
Definition negRowOf (q : Quat) : Mat := fun _ j => - qget q j.

(** Row [i] of a 4x4 matrix times a 4-vector, and the whole product. *)
Definition rowDot4 (M : Mat) (i : nat) (v : Quat) : R :=
  M i 0%nat * qx v + M i 1%nat * qy v + M i 2%nat * qz v + M i 3%nat * qw v.

Definition mulMV4 (M : Mat) (v : Quat) : Quat :=
  Q4 (rowDot4 M 0 v) (rowDot4 M 1 v) (rowDot4 M 2 v) (rowDot4 M 3 v).

(** The product of a 3x3 matrix with a 3-vector. *)
Definition mulMV3 (M : Mat) (v : Vec3) : Vec3 :=
  V3 (M 0%nat 0%nat * vx v + M 0%nat 1%nat * vy v + M 0%nat 2%nat * vz v)
     (M 1%nat 0%nat * vx v + M 1%nat 1%nat * vy v + M 1%nat 2%nat * vz v)
     (M 2%nat 0%nat * vx v + M 2%nat 1%nat * vy v + M 2%nat 2%nat * vz v).

(** The product of two square matrices of size 3. *)
Definition mulMM3 (A B : Mat) : Mat :=
  fun i j => A i 0%nat * B 0%nat j + A i 1%nat * B 1%nat j + A i 2%nat * B 2%nat j.

(** ** Library functions of [<cmath>] *)

(** [atan2(y, x)] by the C library's cases (the angle of the point [(x, y)],
    in [(-PI, PI]]), without signed zeros. *)
Definition atan2 (y x : R) : R :=
  if Rlt_dec 0 x then atan (y / x)
  else if Rlt_dec x 0 then
    (if Rle_dec 0 y then atan (y / x) + PI else atan (y / x) - PI)
  else if Rlt_dec 0 y then PI / 2
  else if Rlt_dec y 0 then - (PI / 2)
  else 0.

(** [floor(x)] as a real. *)
Definition floor (x : R) : R := IZR (Zfloor x).

(** ** Rotation conversions *)

(** The comma initializer [M << a, b, c, d, e, f, g, h, k] of a 3x3 matrix:
    the nine coefficients row by row. *)
Definition mat3Of (a b c d e f g h k : R) : Mat :=
  fun i j =>
    match i, j with
    | O, O => a             | O, S O => b             | O, S (S O) => c
    | S O, O => d           | S O, S O => e           | S O, S (S O) => f
    | S (S O), O => g       | S (S O), S O => h       | S (S O), S (S O) => k
    | _, _ => 0
    end.

(** [vecToSqew] *)
Definition vecToSqew (v : Vec3) : Mat :=
  mat3Of 0 (- vz v) (vy v) (vz v) 0 (- vx v) (- vy v) (vx v) 0.

(** [rangePi] *)
Definition rangePi (v : Vec3) : Vec3 :=
  let a := norm3 v in
  if Rle_dec a PI then v
  else
    let a2 := -2 * PI * floor ((a + PI) / (2 * PI)) + a in
    v3scale (v3div v a) a2.

(** [quatToRotMat] *)
Definition quatToRotMat (q : Quat) : Mat :=
  let v := vecPart q in
  madd (madd (mlscale (2 * qget q 3 * qget q 3 - 1) midentity)
             (mlscale (2 * qget q 3) (vecToSqew v)))
       (outer3 (v3lscale 2 v) v).

(** [quatToRotVec] *)
Definition quatToRotVec (q : Quat) : Vec3 :=
  let c := qw q in
  let v := vecPart q in
  let s := norm3 v in
  if Rle_dec 1e-10 s then
    let a := 2 * atan2 s c in
    v3div (v3scale v a) s
  else v3scale v 2.

(** [q.normalize()] of Eigen on a 4-vector: division by the norm (left as it
    is at norm 0, where Eigen divides by nothing). *)
Definition normalize4 (q : Quat) : Quat :=
  let n := norm4 q in
  if Rlt_dec 0 n then Q4 (qx q / n) (qy q / n) (qz q / n) (qw q / n) else q.

(** [rotVecToQuat] *)
Definition rotVecToQuat (v : Vec3) : Quat :=
  let a := norm3 v in
  let w := cos (a / 2) in
  let u := if Rle_dec 1e-10 a then v3lscale (sin (a / 2) / a) v else v in
  normalize4 (Q4 (vx u) (vy u) (vz u) w).

(** [quatInverse] *)
Definition quatInverse (q : Quat) : Quat :=
  Q4 (- qx q) (- qy q) (- qz q) (qw q).

(** [quatIdentity] *)
Definition quatIdentity : Quat := Q4 0 0 0 1.

(** [quatL]: the four statements of the source, in their order. *)
Definition quatL (q : Quat) : Mat :=
  let M := mscale midentity (qw q) in
  let M := blockAdd M 0 0 3 3 (vecToSqew (vecPart q)) in
  let M := blockSet M 3 0 1 4 (negRowOf q) in
  blockSet M 0 3 4 1 (colOf q).

(** [quatR] *)
Definition quatR (q : Quat) : Mat :=
  let M := mscale midentity (qw q) in
  let M := blockSub M 0 0 3 3 (vecToSqew (vecPart q)) in
  let M := blockSet M 3 0 1 4 (negRowOf q) in
  blockSet M 0 3 4 1 (colOf q).

(** [quatToYpr] *)
Definition quatToYpr (q : Quat) : Vec3 :=
  V3 (atan2 (2 * (- qget q 3 * qget q 0 + qget q 1 * qget q 2))
            (1 - 2 * (qget q 0 ^ 2 + qget q 1 ^ 2)))
     (asin (2 * (- qget q 3 * qget q 1 - qget q 0 * qget q 2)))
     (atan2 (2 * (- qget q 3 * qget q 2 + qget q 0 * qget q 1))
            (1 - 2 * (qget q 1 ^ 2 + qget q 2 ^ 2))).

(** [yprToQuat] *)
Definition yprToQuat (v : Vec3) : Quat :=
  let c_phi := cos (vget v 0 / 2) in
  let s_phi := sin (vget v 0 / 2) in
  let c_theta := cos (vget v 1 / 2) in
  let s_theta := sin (vget v 1 / 2) in
  let c_psi := cos (vget v 2 / 2) in
  let s_psi := sin (vget v 2 / 2) in
  Q4 (c_phi * s_theta * s_psi - c_theta * c_psi * s_phi)
     (- c_phi * s_theta * c_psi - c_theta * s_psi * s_phi)
     (- c_phi * c_theta * s_psi + s_theta * c_psi * s_phi)
     (c_phi * c_theta * c_psi + s_theta * s_psi * s_phi).

(** [quatToRpy] *)
Definition quatToRpy (q : Quat) : Vec3 :=
  V3 (atan2 (2 * (- qget q 2 * qget q 1 - qget q 3 * qget q 0))
            (qget q 2 ^ 2 + qget q 3 ^ 2 - qget q 0 ^ 2 - qget q 1 ^ 2))
     (asin (2 * (qget q 0 * qget q 2 - qget q 3 * qget q 1)))
     (atan2 (-2 * qget q 0 * qget q 1 - 2 * qget q 3 * qget q 2)
            (qget q 0 ^ 2 + qget q 3 ^ 2 - qget q 2 ^ 2 - qget q 1 ^ 2)).

(** [rpyToQuat] *)
Definition rpyToQuat (v : Vec3) : Quat :=
  let c_phi := cos (vget v 0 / 2) in
  let s_phi := sin (vget v 0 / 2) in
  let c_theta := cos (vget v 1 / 2) in
  let s_theta := sin (vget v 1 / 2) in
  let c_psi := cos (vget v 2 / 2) in
  let s_psi := sin (vget v 2 / 2) in
  Q4 (- c_phi * c_theta * s_psi - s_theta * c_psi * s_phi)
     (- c_phi * s_theta * c_psi + c_theta * s_psi * s_phi)
     (- c_phi * s_theta * s_psi - c_theta * c_psi * s_phi)
     (c_phi * c_theta * c_psi - s_theta * s_psi * s_phi).

(** [rpyToEar]: the nine assignments, then the comma initializer that writes
    the same nine coefficients again. *)
Definition rpyToEar (rpy : Vec3) : Mat :=
  let cp := cos (vget rpy 1) in
  let sp := sin (vget rpy 1) in
  let cy := cos (vget rpy 2) in
  let sy := sin (vget rpy 2) in
  mat3Of (cp * cy) sy 0 (- cp * sy) cy 0 sp 0 1.

(** [rpyToEarInv] *)
Definition rpyToEarInv (rpy : Vec3) : Mat :=
  let M := mzero in
  let cp := cos (vget rpy 1) in
  if Rlt_dec 1e-10 cp then
    let cpi := 1 / cp in
    let tp := tan (vget rpy 1) in
    let cy := cos (vget rpy 2) in
    let sy := sin (vget rpy 2) in
    let M := mset M 0 0 (cpi * cy) in
    let M := mset M 0 1 (- cpi * sy) in
    let M := mset M 0 2 0 in
    let M := mset M 1 0 sy in
    let M := mset M 1 1 cy in
    let M := mset M 1 2 0 in
    let M := mset M 2 0 (- cy * tp) in
    let M := mset M 2 1 (sy * tp) in
    mset M 2 2 1
  else M.

(** ** The normalized quaternion [NQuat] *)

(** [class NQuat]: the private array [q_[4]]. *)
Record NQuat : Type := NQ { q_ : Quat }.

(** [operator()(i)] *)
Definition nqget (q : NQuat) (i : nat) : R := qget (q_ q) i.

(** [NQuat::normalize] *)
Definition NQuat_normalize (q : NQuat) : NQuat :=
  let a := norm4 (q_ q) in
  if Rlt_dec 1e-10 a
  then NQ (Q4 (nqget q 0 / a) (nqget q 1 / a) (nqget q 2 / a) (nqget q 3 / a))
  else NQ (Q4 0 0 0 1).

(** [NQuat::setIdentity] *)
Definition NQuat_identity : NQuat := NQ (Q4 0 0 0 1).

(** [NQuat::operator*]: [this] is the left operand [p], the argument is [q];
    the four assignments of the source, term by term. *)
Definition NQuat_mul (p q : NQuat) : NQuat :=
  NQ (Q4
    (nqget q 0 - nqget p 2 * nqget q 1 + nqget p 1 * nqget q 2 + nqget p 0 * nqget q 3)
    (nqget p 2 * nqget q 0 + nqget q 1 - nqget p 0 * nqget q 2 + nqget p 1 * nqget q 3)
    (- nqget p 1 * nqget q 0 + nqget p 0 * nqget q 1 + nqget q 2 + nqget p 2 * nqget q 3)
    (- nqget p 0 * nqget q 0 - nqget p 1 * nqget q 1 - nqget p 2 * nqget q 2
       + nqget p 3 * nqget q 3)).

(** [NquatToRotVec] *)
Definition NquatToRotVec (q : NQuat) : Vec3 :=
  let c := nqget q 3 in
  let v := V3 (nqget q 0) (nqget q 1) (nqget q 2) in
  let s := norm3 v in
  if Rle_dec 1e-10 s then
    let a := 2 * atan2 s c in
    v3div (v3scale v a) s
  else v3scale v 2.

(** [NrotVecToQuat] *)
Definition NrotVecToQuat (v : Vec3) : NQuat :=
  let a := norm3 v in
  let w := cos (a / 2) in
  let q :=
    if Rle_dec 1e-10 a then
      let b := sin (a / 2) / a in
      NQ (Q4 (b * vget v 0) (b * vget v 1) (b * vget v 2) w)
    else NQ (Q4 (vget v 0) (vget v 1) (vget v 2) w) in
  NQuat_normalize q.

(** ** The product-manifold state [LieG<N,M,L>] *)

(** The three arrays of the class; [N], [M] and [L] are their lengths. *)
Record LieG : Type := mkLieG {
  scalars_ : list R;
  vectors_ : list Vec3;
  quats_ : list NQuat
}.

Definition hasShape (N M L : nat) (x : LieG) : Prop :=
  length (scalars_ x) = N /\ length (vectors_ x) = M /\ length (quats_ x) = L.

(** [getDim] *)
Definition getDim (x : LieG) : nat :=
  (length (scalars_ x) + 3 * (length (vectors_ x) + length (quats_ x)))%nat.

(** Array reads [scalars_[i]], [x[i]] and [x(i)]; the default stands for the
    read past the end that C++ leaves undefined. *)
Definition scalarAt (x : LieG) (i : nat) : R := nth i (scalars_ x) 0.
Definition vectorAt (x : LieG) (i : nat) : Vec3 := nth i (vectors_ x) v3zero.
Definition quatAt (x : LieG) (i : nat) : NQuat := nth i (quats_ x) NQuat_identity.

(** The tangent vector [LieA], a column of [N+3M+3L] reals: [d(i)] is a
    read, [temp(i) = x] a write (without effect past the end). *)
Definition LieA : Type := list R.

Definition coeff (d : LieA) (i : nat) : R := nth i d 0.

Fixpoint setCoeff (d : LieA) (i : nat) (x : R) : LieA :=
  match d, i with
  | [], _ => []
  | _ :: t, O => x :: t
  | h :: t, S k => h :: setCoeff t k x
  end.

(** [d.block<3,1>(k,0)] read and written. *)
Definition block3 (d : LieA) (k : nat) : Vec3 :=
  V3 (coeff d k) (coeff d (k + 1)) (coeff d (k + 2)).

Definition setBlock3 (d : LieA) (k : nat) (v : Vec3) : LieA :=
  setCoeff (setCoeff (setCoeff d k (vx v)) (k + 1) (vy v)) (k + 2) (vz v).

(** [for(int i=0;i<n;i++) body]: the body threaded through [0 .. n-1]. *)
Definition forLoop {S : Type} (n : nat) (body : nat -> S -> S) (s : S) : S :=
  fold_left (fun acc i => body i acc) (seq 0 n) s.

(** The source hands the [NQuat] [y(i)] to [quatInverse], which is declared
    on [Quat], and multiplies an [NQuat] by the result: the two types are
    read as the same four components. *)
Definition NQuat_inverse (q : NQuat) : NQuat := NQ (quatInverse (q_ q)).

(** [LieG::operator-]: [x] is [this], of dimension [getDim x]; the loop
    bounds [NN], [MM], [LL] are the shape of the argument [y].  The local
    [temp] starts unwritten, read here as zeros. *)
Definition LieG_minus (x y : LieG) : LieA :=
  let NN := length (scalars_ y) in
  let MM := length (vectors_ y) in
  let LL := length (quats_ y) in
  let temp := repeat 0 (getDim x) in
  let temp := forLoop NN (fun i t => setCoeff t i (scalarAt x i - scalarAt y i)) temp in
  let temp := forLoop MM (fun i t =>
                setBlock3 t (NN + i * 3) (v3sub (vectorAt x i) (vectorAt y i))) temp in
  forLoop LL (fun i t =>
    setBlock3 t (NN + MM * 3 + i * 3)
      (NquatToRotVec (NQuat_mul (quatAt x i) (NQuat_inverse (quatAt y i))))) temp.

(** [LieG::operator+]: [x] is [this], [d] the tangent vector; [NN], [MM],
    [LL] are the template arguments, the shape of the result [temp], whose
    slots are each written once by the three loops. *)
Definition LieG_plus (NN MM LL : nat) (x : LieG) (d : LieA) : LieG :=
  mkLieG
    (map (fun i => scalarAt x i + coeff d i) (seq 0 NN))
    (map (fun i => v3add (vectorAt x i) (block3 d (NN + i * 3))) (seq 0 MM))
    (map (fun i => NQuat_mul (NrotVecToQuat (block3 d (NN + MM * 3 + i * 3))) (quatAt x i))
         (seq 0 LL)).

(** [LieG::reset] on a state of shape [(N, M, L)]. *)
Definition LieG_reset (N M L : nat) : LieG :=
  mkLieG (repeat 0 N) (repeat v3zero M) (repeat NQuat_identity L).

(** ** [rangePi] in binary64

    The one function modelled a second time, on the doubles themselves
    (IEEE 754 binary64 with round to nearest even, as the primitive floats
    compute), to see what the rounding of [floor((a+M_PI)/(2*M_PI))] and of
    [-2.0*M_PI*k + a] does to the wrapped norm. *)
Module Binary64.
Import PrimFloat.
Local Open Scope float_scope.

(** [M_PI], the double nearest to pi: 3.141592653589793. *)
Definition M_PI : float := 0x1.921fb54442d18p+1.

(** [floor] of [<cmath>] on a double.  A double of magnitude [2^52] or more
    is an integer.  Below that, adding and taking away [2^52] rounds the
    magnitude to an integer, which is stepped down (up, for the ceiling of
    the magnitude of a negative number) when the rounding went the wrong
    way. *)
Definition floor (x : float) : float :=
  let m := abs x in
  if 0x1p+52 <=? m then x
  else
    let t := (m + 0x1p+52) - 0x1p+52 in
    if 0 <=? x then (if x <? t then t - 1 else t)
    else - (if t <? m then t + 1 else t).

(** [Eigen::Vector3d] on doubles. *)
Record Vec3 : Type := V3 { vx : float; vy : float; vz : float }.

(** [v.norm()]: the square root of the sum of the squares, summed in the
    order of Eigen's unrolled reduction. *)
Definition norm (v : Vec3) : float :=
  sqrt (vx v * vx v + (vy v * vy v + vz v * vz v)).

(** [rangePi], operation by operation: [v/a*a2] is [(v/a)*a2] on each
    component, [-2.0*M_PI*floor(...)+a] is [((-2.0*M_PI)*floor(...)) + a]. *)
Definition rangePi (v : Vec3) : Vec3 :=
  let a := norm v in
  if a <=? M_PI then v
  else
    let a2 := (- 2) * M_PI * floor ((a + M_PI) / (2 * M_PI)) + a in
    V3 (vx v / a * a2) (vy v / a * a2) (vz v / a * a2).

(** The doubles named in the statements on this model, with their shortest
    decimal forms. *)
Definition zero : float := 0.
Definition four : float := 4.
(** 15.707963267948964, the double nearest to [5*pi] *)
Definition five_pi : float := 0x1.f6a7a2955385dp+3.
(** 3.141592653589795, four doubles above [M_PI] *)
Definition above_pi : float := 0x1.921fb54442d1cp+1.
(** 3.1415926535897913 *)
Definition below_pi : float := 0x1.921fb54442d14p+1.
(** 1e16 *)
Definition ten_to_16 : float := 0x1.1c37937e08p+53.
(** 2.2831853071795862 *)
Definition wrapped_four : float := 0x1.243f6a8885a3p+1.
End Binary64.

(** ** Closeness *)

(** Two reals within [tol] of each other, and the same for every component
    of vectors and quaternions. *)
Definition close (tol a b : R) : Prop := Rabs (a - b) <= tol.

Definition close3 (tol : R) (a b : Vec3) : Prop :=
  close tol (vx a) (vx b) /\ close tol (vy a) (vy b) /\ close tol (vz a) (vz b).

Definition close4 (tol : R) (a b : Quat) : Prop :=
  close tol (qx a) (qx b) /\ close tol (qy a) (qy b) /\
  close tol (qz a) (qz b) /\ close tol (qw a) (qw b).

(** The Hamilton product as the spec words it: the left-multiplication matrix
    of the first factor applied to the second factor. *)
Definition hamilton (p q : Quat) : Quat := mulMV4 (quatL p) q.

(** The opposite vector and the opposite quaternion, and the cross product,
    in which the properties below are worded. *)
Definition v3neg (v : Vec3) : Vec3 := V3 (- vx v) (- vy v) (- vz v).
Definition qneg (q : Quat) : Quat := Q4 (- qx q) (- qy q) (- qz q) (- qw q).
Definition cross3 (a b : Vec3) : Vec3 :=
  V3 (vy a * vz b - vz a * vy b) (vz a * vx b - vx a * vz b) (vx a * vy b - vy a * vx b).

(** The Hamilton product in its usual vector form, for quaternions written
    vector part first: the vector part is [pw*qv + qw*pv + pv x qv] and the
    scalar part [pw*qw - pv.qv]; with it [i*j = k]. *)
Definition dot3 (a b : Vec3) : R := vx a * vx b + vy a * vy b + vz a * vz b.

Definition hamiltonProduct (p q : Quat) : Quat :=
  let pv := vecPart p in
  let qv := vecPart q in
  let v := v3add (v3add (v3lscale (qw p) qv) (v3lscale (qw q) pv)) (cross3 pv qv) in
  Q4 (vx v) (vy v) (vz v) (qw p * qw q - dot3 pv qv).

(** ** Auxiliary notions of the proofs *)

(** The norm that [rotVecToQuat] divides by on its second branch. *)
Definition smallBranchNorm (v : Vec3) : R :=
  norm4 (Q4 (vx v) (vy v) (vz v) (cos (norm3 v / 2))).

(** The squared norm of a quaternion, and the rotation matrix written
    without the constant 1 (the two agree on unit quaternions). *)
Definition normSq4 (q : Quat) : R :=
  qx q * qx q + qy q * qy q + qz q * qz q + qw q * qw q.

Definition rotMatHom (q : Quat) : Mat :=
  mat3Of (qw q * qw q + qx q * qx q - qy q * qy q - qz q * qz q)
         (2 * (qx q * qy q - qw q * qz q))
         (2 * (qx q * qz q + qw q * qy q))
         (2 * (qx q * qy q + qw q * qz q))
         (qw q * qw q - qx q * qx q + qy q * qy q - qz q * qz q)
         (2 * (qy q * qz q - qw q * qx q))
         (2 * (qx q * qz q - qw q * qy q))
         (2 * (qy q * qz q + qw q * qx q))
         (qw q * qw q - qx q * qx q - qy q * qy q + qz q * qz q).

(** Case analysis on two indices below 3. *)
Ltac index3 i j :=
  destruct i as [|[|[|i]]]; [| | |lia];
  (destruct j as [|[|[|j]]]; [| | |lia]).

(** Goals on absolute values of explicit numbers. *)
Ltac rabs := unfold Rabs; destruct (Rcase_abs _); lra.

(** * Properties *)

(** ** Quaternion multiplication matrices *)

Lemma quatL_entries (p q : Quat) :
  mulMV4 (quatL p) q =
  Q4 (qw p * qx q - qz p * qy q + qy p * qz q + qx p * qw q)
     (qz p * qx q + qw p * qy q - qx p * qz q + qy p * qw q)
     (- qy p * qx q + qx p * qy q + qw p * qz q + qz p * qw q)
     (- qx p * qx q - qy p * qy q - qz p * qz q + qw p * qw q).
Proof.
  destruct p as [p0 p1 p2 p3], q as [a b c d].
  unfold mulMV4, rowDot4, quatL, blockSet, blockAdd, mscale, midentity,
    negRowOf, colOf, vecToSqew, mat3Of, vecPart; simpl.
  f_equal; ring.
Qed.

Lemma quatR_entries (q p : Quat) :
  mulMV4 (quatR q) p =
  Q4 (qw q * qx p + qz q * qy p - qy q * qz p + qx q * qw p)
     (- qz q * qx p + qw q * qy p + qx q * qz p + qy q * qw p)
     (qy q * qx p - qx q * qy p + qw q * qz p + qz q * qw p)
     (- qx q * qx p - qy q * qy p - qz q * qz p + qw q * qw p).
Proof.
  destruct p as [p0 p1 p2 p3], q as [a b c d].
  unfold mulMV4, rowDot4, quatR, blockSet, blockSub, mscale, midentity,
    negRowOf, colOf, vecToSqew, mat3Of, vecPart; simpl.
  f_equal; ring.
Qed.

(** C10: for all 4-component quaternions [p] and [q], with no condition on
    their norm, the left-multiplication matrix of [p] applied to [q] and the
    right-multiplication matrix of [q] applied to [p] give the same 4-vector,
    and that vector is the Hamilton product of [p] and [q], first factor
    [p], second factor [q]; so the product of [i = (1,0,0,0)] and
    [j = (0,1,0,0)] is [k = (0,0,1,0)] in this order and [-k] in the other. *)
Theorem quatL_quatR_agree (p q : Quat) :
  mulMV4 (quatL p) q = mulMV4 (quatR q) p /\
  mulMV4 (quatL p) q = hamiltonProduct p q /\
  mulMV4 (quatR q) p = hamiltonProduct p q /\
  mulMV4 (quatL (Q4 1 0 0 0)) (Q4 0 1 0 0) = Q4 0 0 1 0 /\
  mulMV4 (quatR (Q4 0 1 0 0)) (Q4 1 0 0 0) = Q4 0 0 1 0 /\
  mulMV4 (quatL (Q4 0 1 0 0)) (Q4 1 0 0 0) = Q4 0 0 (-1) 0.
Proof.
  rewrite !quatL_entries, !quatR_entries.
  destruct p as [p0 p1 p2 p3], q as [x y z w].
  unfold hamiltonProduct, dot3, cross3, v3add, v3lscale, vecPart; simpl.
  repeat split; f_equal; ring.
Qed.

(** ** The composition operator of [NQuat] *)

(** What the four assignments of [operator*] compute: the Hamilton product,
    plus [(1 - p(3))] times the vector part of the right operand. *)
Lemma NQuat_mul_entries (p q : NQuat) :
  q_ (NQuat_mul p q) =
  Q4 (qx (hamilton (q_ p) (q_ q)) + (1 - qw (q_ p)) * qx (q_ q))
     (qy (hamilton (q_ p) (q_ q)) + (1 - qw (q_ p)) * qy (q_ q))
     (qz (hamilton (q_ p) (q_ q)) + (1 - qw (q_ p)) * qz (q_ q))
     (qw (hamilton (q_ p) (q_ q))).
Proof.
  unfold hamilton; rewrite quatL_entries.
  destruct p as [[p0 p1 p2 p3]], q as [[a b c d]]; simpl.
  f_equal; ring.
Qed.

(** Where the left operand has scalar part 1 the operator is the Hamilton
    product. *)
Lemma NQuat_mul_hamilton_w1 (p q : NQuat) :
  qw (q_ p) = 1 -> q_ (NQuat_mul p q) = hamilton (q_ p) (q_ q).
Proof.
  intros Hw. rewrite NQuat_mul_entries, Hw.
  destruct (hamilton (q_ p) (q_ q)); simpl. f_equal; ring.
Qed.

(** C1: at the unit quaternions [a = b = (1,0,0,0)] the operator [a * b] of
    [NQuat] returns [(1,0,0,-1)], while [quatL(a)] applied to [b] and
    [quatR(b)] applied to [a] both give the Hamilton product [(0,0,0,-1)]:
    the first three assignments of the operator leave out the factor
    [q_[3]] of the left operand. *)
Theorem NQuat_mul_differs_from_quatL_quatR :
  let a := NQ (Q4 1 0 0 0) in
  let b := NQ (Q4 1 0 0 0) in
  q_ (NQuat_mul a b) = Q4 1 0 0 (-1) /\
  mulMV4 (quatL (q_ a)) (q_ b) = Q4 0 0 0 (-1) /\
  mulMV4 (quatR (q_ b)) (q_ a) = Q4 0 0 0 (-1).
Proof.
  cbv zeta. rewrite quatL_entries, quatR_entries.
  unfold NQuat_mul, nqget; simpl.
  repeat split; f_equal; ring.
Qed.

(** ** The quaternion inverse *)

Lemma quatInverse_involutive (q : Quat) : quatInverse (quatInverse q) = q.
Proof.
  destruct q as [a b c d]; unfold quatInverse; simpl.
  f_equal; ring.
Qed.

(** C6: [quatInverse] applied twice gives the quaternion back, for every
    quaternion; but at the unit quaternion [q = (1,0,0,0)] the composition
    [q * quatInverse(q)] of [NQuat] returns [(-1,0,0,1)], whose first
    component is at distance 1 from that of the identity [(0,0,0,1)]. *)
Theorem quatInverse_twice_and_NQuat_mul_inverse :
  (forall q : Quat, quatInverse (quatInverse q) = q) /\
  (let q := NQ (Q4 1 0 0 0) in
   norm4 (q_ q) = 1 /\
   q_ (NQuat_mul q (NQuat_inverse q)) = Q4 (-1) 0 0 1 /\
   Rabs (qx (q_ (NQuat_mul q (NQuat_inverse q))) - qx quatIdentity) = 1).
Proof.
  split; [exact quatInverse_involutive|].
  cbv zeta. unfold NQuat_mul, NQuat_inverse, quatInverse, nqget, norm4; simpl.
  repeat split.
  - replace (1 * 1 + 0 * 0 + 0 * 0 + 0 * 0) with 1 by ring. apply sqrt_1.
  - f_equal; ring.
  - unfold Rabs; destruct (Rcase_abs _); lra.
Qed.

(** ** Norms and [atan2] *)

Lemma norm3_nonneg (v : Vec3) : 0 <= norm3 v.
Proof. apply sqrt_pos. Qed.

Lemma sumsq3_nonneg (a b c : R) : 0 <= a * a + b * b + c * c.
Proof. nra. Qed.

Lemma norm3_sqr (v : Vec3) :
  norm3 v * norm3 v = vx v * vx v + vy v * vy v + vz v * vz v.
Proof. unfold norm3. apply sqrt_sqrt, sumsq3_nonneg. Qed.

Lemma norm3_scale (v : Vec3) (k : R) : norm3 (v3scale v k) = norm3 v * Rabs k.
Proof.
  unfold norm3, v3scale; simpl.
  replace (vx v * k * (vx v * k) + vy v * k * (vy v * k) + vz v * k * (vz v * k))
    with ((vx v * vx v + vy v * vy v + vz v * vz v) * (k * k)) by ring.
  rewrite sqrt_mult_alt by apply sumsq3_nonneg.
  f_equal. fold (Rsqr k). apply sqrt_Rsqr_abs.
Qed.

Lemma norm3_div (v : Vec3) (k : R) : norm3 (v3div v k) = norm3 v * Rabs (/ k).
Proof. rewrite <- norm3_scale. reflexivity. Qed.

Lemma norm3_axis (x : R) : 0 <= x -> norm3 (V3 x 0 0) = x.
Proof.
  intros Hx. unfold norm3; simpl.
  replace (x * x + 0 * 0 + 0 * 0) with (x * x) by ring.
  now apply sqrt_square.
Qed.

Lemma atan_pos (x : R) : 0 < x -> 0 < atan x.
Proof. intros Hx. rewrite <- atan_0. now apply atan_increasing. Qed.

Lemma atan_neg (x : R) : x < 0 -> atan x < 0.
Proof. intros Hx. rewrite <- atan_0. now apply atan_increasing. Qed.

Lemma atan2_right (y x : R) : 0 < x -> atan2 y x = atan (y / x).
Proof. intros Hx. unfold atan2. destruct (Rlt_dec 0 x); [reflexivity | lra]. Qed.

Lemma atan2_upper_half (y x : R) : 0 < y -> 0 < atan2 y x < PI.
Proof.
  intros Hy. unfold atan2.
  pose proof PI_RGT_0 as Hpi.
  destruct (Rlt_dec 0 x) as [Hx|Hx].
  - pose proof (atan_bound (y / x)) as Hb.
    assert (0 < y / x) by (apply Rdiv_lt_0_compat; lra).
    pose proof (atan_pos _ H). lra.
  - destruct (Rlt_dec x 0) as [Hx'|Hx'].
    + destruct (Rle_dec 0 y); [|lra].
      pose proof (atan_bound (y / x)) as Hb.
      assert (y / x < 0).
      { unfold Rdiv. assert (/ x < 0) by now apply Rinv_lt_0_compat. nra. }
      pose proof (atan_neg _ H). lra.
    + destruct (Rlt_dec 0 y); lra.
Qed.

Lemma atan2_sin_cos (k t : R) :
  0 < k -> - (PI / 2) < t < PI / 2 -> atan2 (k * sin t) (k * cos t) = t.
Proof.
  intros Hk Ht.
  assert (Hc : 0 < cos t) by (apply cos_gt_0; lra).
  rewrite atan2_right by nra.
  replace (k * sin t / (k * cos t)) with (tan t) by (unfold tan; field; lra).
  now apply atan_tan.
Qed.

(** ** Quaternion to rotation vector *)

Lemma NquatToRotVec_quatToRotVec (q : NQuat) :
  NquatToRotVec q = quatToRotVec (q_ q).
Proof. destruct q as [[a b c d]]; reflexivity. Qed.

Lemma quatToRotVec_large (q : Quat) :
  1e-10 <= norm3 (vecPart q) ->
  quatToRotVec q =
  v3div (v3scale (vecPart q) (2 * atan2 (norm3 (vecPart q)) (qw q))) (norm3 (vecPart q)).
Proof.
  intros Hs. unfold quatToRotVec.
  destruct (Rle_dec 1e-10 (norm3 (vecPart q))); [reflexivity | lra].
Qed.

Lemma quatToRotVec_small (q : Quat) :
  norm3 (vecPart q) < 1e-10 -> quatToRotVec q = v3scale (vecPart q) 2.
Proof.
  intros Hs. unfold quatToRotVec.
  destruct (Rle_dec 1e-10 (norm3 (vecPart q))); [lra | reflexivity].
Qed.

(** On the first branch the norm of the result is the angle
    [2*atan2(s, c)] itself. *)
Lemma quatToRotVec_norm_large (q : Quat) :
  1e-10 <= norm3 (vecPart q) ->
  norm3 (quatToRotVec q) = 2 * atan2 (norm3 (vecPart q)) (qw q).
Proof.
  intros Hs. rewrite quatToRotVec_large by assumption.
  set (s := norm3 (vecPart q)) in *.
  assert (Hs0 : 0 < s) by lra.
  destruct (atan2_upper_half s (qw q) Hs0) as [Ha _].
  rewrite norm3_div, norm3_scale. fold s.
  rewrite (Rabs_pos_eq (2 * _)) by lra.
  rewrite Rabs_pos_eq by (left; now apply Rinv_0_lt_compat).
  field; lra.
Qed.





(** ** The concrete scenario: identity, half turn about the first axis *)

Lemma quatToRotVec_identity : quatToRotVec quatIdentity = v3zero.
Proof.
  assert (H0 : norm3 (vecPart quatIdentity) = 0) by (apply norm3_axis; lra).
  rewrite quatToRotVec_small by (rewrite H0; lra).
  unfold v3scale, v3zero; simpl. f_equal; ring.
Qed.

Lemma norm4_axis (x : R) : 0 <= x -> norm4 (Q4 x 0 0 0) = x.
Proof.
  intros Hx. unfold norm4; simpl.
  replace (x * x + 0 * 0 + 0 * 0 + 0 * 0) with (x * x) by ring.
  now apply sqrt_square.
Qed.

Lemma NrotVecToQuat_half_turn : NrotVecToQuat (V3 PI 0 0) = NQ (Q4 1 0 0 0).
Proof.
  pose proof PI2_1 as Hpi.
  unfold NrotVecToQuat.
  rewrite norm3_axis by lra.
  destruct (Rle_dec 1e-10 PI); [|lra].
  rewrite cos_PI2, sin_PI2; simpl.
  replace (1 / PI * PI) with 1 by (field; lra).
  replace (1 / PI * 0) with 0 by (field; lra).
  unfold NQuat_normalize, nqget; simpl.
  rewrite norm4_axis by lra.
  destruct (Rlt_dec 1e-10 1); [|lra].
  f_equal. f_equal; field.
Qed.

(** C2 (amended): the identity quaternion [(0,0,0,1)] converts to the
    rotation vector [(0,0,0)]; the rotation vector [(PI,0,0)] converts to the
    quaternion [(1,0,0,0)]; and composing that quaternion with itself by the
    operator of [NQuat] gives a quaternion of scalar part [-1]. *)
Theorem identity_and_half_turn_scenario :
  quatToRotVec quatIdentity = v3zero /\
  q_ (NrotVecToQuat (V3 PI 0 0)) = Q4 1 0 0 0 /\
  qw (q_ (NQuat_mul (NrotVecToQuat (V3 PI 0 0)) (NrotVecToQuat (V3 PI 0 0)))) = -1.
Proof.
  split; [exact quatToRotVec_identity|].
  rewrite NrotVecToQuat_half_turn. split; [reflexivity|].
  unfold NQuat_mul, nqget; simpl. ring.
Qed.

(** C2 as stated fails: the half turn composed with itself is [(1,0,0,-1)],
    not within [1e-9] of the identity quaternion [(0,0,0,1)]. *)
Lemma half_turn_twice_is_not_identity :
  q_ (NQuat_mul (NrotVecToQuat (V3 PI 0 0)) (NrotVecToQuat (V3 PI 0 0)))
    = Q4 1 0 0 (-1) /\
  ~ close4 1e-9
      (q_ (NQuat_mul (NrotVecToQuat (V3 PI 0 0)) (NrotVecToQuat (V3 PI 0 0))))
      quatIdentity.
Proof.
  rewrite NrotVecToQuat_half_turn.
  assert (E : q_ (NQuat_mul (NQ (Q4 1 0 0 0)) (NQ (Q4 1 0 0 0))) = Q4 1 0 0 (-1)).
  { unfold NQuat_mul, nqget; simpl. f_equal; ring. }
  rewrite E. split; [reflexivity|].
  unfold close4, close, quatIdentity; simpl.
  intros (_ & _ & _ & Hw). revert Hw. rabs.
Qed.

(** ** The Euler-rate matrix and its guarded inverse *)

Lemma rpyToEarInv_guarded (rpy : Vec3) :
  cos (vget rpy 1) <= 1e-10 -> rpyToEarInv rpy = mzero.
Proof.
  intros Hc. unfold rpyToEarInv.
  destruct (Rlt_dec 1e-10 (cos (vget rpy 1))); [lra | reflexivity].
Qed.

Lemma rpyToEarInv_entries (rpy : Vec3) :
  1e-10 < cos (vget rpy 1) ->
  forall i j : nat, (i < 3)%nat -> (j < 3)%nat ->
  rpyToEarInv rpy i j =
  mat3Of (1 / cos (vget rpy 1) * cos (vget rpy 2))
         (- (1 / cos (vget rpy 1)) * sin (vget rpy 2)) 0
         (sin (vget rpy 2)) (cos (vget rpy 2)) 0
         (- cos (vget rpy 2) * tan (vget rpy 1))
         (sin (vget rpy 2) * tan (vget rpy 1)) 1 i j.
Proof.
  intros Hc i j Hi Hj. unfold rpyToEarInv.
  destruct (Rlt_dec 1e-10 (cos (vget rpy 1))); [|lra].
  destruct i as [|[|[|i]]]; [| | |lia];
    (destruct j as [|[|[|j]]]; [| | |lia]); reflexivity.
Qed.

(** C9: whenever the cosine of the pitch [rpy(1)] is at most [1e-10], and so
    at pitch [PI/2], [rpyToEarInv] returns the zero matrix, every entry of
    which is the real number 0; when the cosine is above [1e-10] the result
    is not the zero matrix and is the two-sided inverse of [rpyToEar(rpy)] on
    the 3x3 entries. *)
Theorem rpyToEarInv_zero_at_gimbal_lock (rpy : Vec3) :
  (cos (vget rpy 1) <= 1e-10 ->
     rpyToEarInv rpy = mzero /\ forall i j : nat, rpyToEarInv rpy i j = 0) /\
  (vget rpy 1 = PI / 2 -> rpyToEarInv rpy = mzero) /\
  (1e-10 < cos (vget rpy 1) ->
     rpyToEarInv rpy <> mzero /\
     forall i j : nat, (i < 3)%nat -> (j < 3)%nat ->
       mulMM3 (rpyToEarInv rpy) (rpyToEar rpy) i j = midentity i j /\
       mulMM3 (rpyToEar rpy) (rpyToEarInv rpy) i j = midentity i j).
Proof.
  split; [|split].
  - intros Hc. rewrite rpyToEarInv_guarded by assumption.
    split; [reflexivity | intros i j; reflexivity].
  - intros Hp. apply rpyToEarInv_guarded. rewrite Hp, cos_PI2. lra.
  - intros Hc. split.
    + intros Hz.
      assert (H22 : rpyToEarInv rpy 2%nat 2%nat = 1).
      { rewrite rpyToEarInv_entries by (assumption || lia). reflexivity. }
      rewrite Hz in H22. unfold mzero in H22. lra.
    + intros i j Hi Hj.
      assert (Hc0 : cos (vget rpy 1) <> 0) by lra.
      unfold mulMM3.
      rewrite !rpyToEarInv_entries by (assumption || lia).
      unfold rpyToEar, midentity, tan.
      pose proof (sin2_cos2 (vget rpy 2)) as Hy. unfold Rsqr in Hy.
      set (cp := cos (vget rpy 1)) in *. set (sp := sin (vget rpy 1)) in *.
      set (cy := cos (vget rpy 2)) in *. set (sy := sin (vget rpy 2)) in *.
      destruct i as [|[|[|i]]]; [| | |lia];
        (destruct j as [|[|[|j]]]; [| | |lia]); simpl;
        (split;
         first [ field; assumption
               | transitivity (sy * sy + cy * cy); [field; assumption | assumption]
               | transitivity (sp * (1 - (sy * sy + cy * cy)));
                 [field; assumption | rewrite Hy; ring] ]).
Qed.

Lemma rpyToEarInv_zero_at_gimbal_lock_witness :
  rpyToEarInv (V3 0 (PI / 2) 0) = mzero /\
  rpyToEarInv (V3 0 0 0) <> mzero.
Proof.
  split.
  - apply (rpyToEarInv_zero_at_gimbal_lock (V3 0 (PI / 2) 0)). reflexivity.
  - apply (rpyToEarInv_zero_at_gimbal_lock (V3 0 0 0)).
    simpl. rewrite cos_0. lra.
Defined.

(** ** Wrapping a rotation vector into the ball of radius [PI] *)

Lemma rangePi_small (v : Vec3) : norm3 v <= PI -> rangePi v = v.
Proof.
  intros Ha. unfold rangePi.
  destruct (Rle_dec (norm3 v) PI); [reflexivity | lra].
Qed.

Lemma rangePi_large (v : Vec3) :
  PI < norm3 v ->
  rangePi v =
  v3scale (v3div v (norm3 v))
          (norm3 v - 2 * PI * IZR (Zfloor ((norm3 v + PI) / (2 * PI)))).
Proof.
  intros Ha. unfold rangePi, floor.
  destruct (Rle_dec (norm3 v) PI); [lra|].
  f_equal. ring.
Qed.

(** The remainder left by [floor((a + PI) / (2*PI))] lies in [[-PI, PI)]. *)
Lemma wrap_remainder (a : R) :
  - PI <= a - 2 * PI * IZR (Zfloor ((a + PI) / (2 * PI))) < PI.
Proof.
  pose proof PI_RGT_0 as Hpi.
  destruct (Zfloor_bound ((a + PI) / (2 * PI))) as [Hlo Hhi].
  set (k := IZR (Zfloor ((a + PI) / (2 * PI)))) in *.
  assert (E : a + PI = (a + PI) / (2 * PI) * (2 * PI)) by (field; lra).
  split; nra.
Qed.


Lemma rangePi_norm_large (v : Vec3) :
  PI < norm3 v ->
  norm3 (rangePi v) =
  Rabs (norm3 v - 2 * PI * IZR (Zfloor ((norm3 v + PI) / (2 * PI)))).
Proof.
  intros Ha. pose proof PI_RGT_0 as Hpi.
  rewrite rangePi_large by assumption.
  rewrite norm3_scale, norm3_div.
  rewrite (Rabs_pos_eq (/ norm3 v)) by (left; apply Rinv_0_lt_compat; lra).
  replace (norm3 v * / norm3 v) with 1 by (field; lra).
  ring.
Qed.

(** The binary64 [floor] on a few doubles: halves, integers, negative
    numbers, the double below 3, and the quotient [rangePi] forms at the
    double nearest to [5*pi]. *)
Module Binary64Facts.
Import PrimFloat.
Local Open Scope float_scope.

Lemma floor_examples :
  Binary64.floor 0x1.4p+1 = 2 /\
  Binary64.floor 3 = 3 /\
  Binary64.floor 0x1.7ffffffffffffp+1 = 2 /\
  Binary64.floor 0x1p-1 = 0 /\
  Binary64.floor (- 0x1p-1) = - 1 /\
  Binary64.floor (- 2) = - 2 /\
  Binary64.floor 0x1p+60 = 0x1p+60 /\
  Binary64.floor ((Binary64.five_pi + Binary64.M_PI) / (2 * Binary64.M_PI)) = 3.
Proof. repeat split; vm_compute; reflexivity. Qed.
End Binary64Facts.




(** ** Rotation vector to quaternion and back *)

Lemma sin_cubic_lower (x : R) : 0 <= x -> x <= PI -> x - x * x * x / 6 <= sin x.
Proof.
  intros H0 H1. destruct (sin_bound x 0 H0 H1) as [Hlo _].
  unfold sin_approx, sin_term in Hlo; simpl in Hlo. lra.
Qed.

Lemma sin_sqr_le (x : R) : 0 <= x -> x <= PI -> sin x * sin x <= x * x.
Proof.
  intros H0 H1. pose proof (sin_ge_0 x H0 H1) as Hs.
  assert (sin x <= x).
  { destruct H0 as [H0|H0]; [left; now apply sin_lt_x | rewrite <- H0, sin_0; lra]. }
  nra.
Qed.

(** A half angle below [PI/2] whose sine is below [1e-10] is itself tiny. *)
Lemma small_sine_small_angle (x : R) :
  0 <= x -> x < PI / 2 -> sin x < 1e-10 -> x <= 2e-10.
Proof.
  intros H0 H1 Hs. pose proof PI2_1 as Hpi.
  destruct (Rle_dec x 1) as [Hx|Hx].
  - pose proof (sin_cubic_lower x H0 ltac:(lra)). nra.
  - assert (sin 1 < sin x) by (apply sin_increasing_1; lra).
    pose proof (sin_cubic_lower 1 ltac:(lra) ltac:(lra)). lra.
Qed.

Lemma abs_vx_le_norm3 (v : Vec3) : Rabs (vx v) <= norm3 v.
Proof.
  pose proof (norm3_nonneg v); pose proof (norm3_sqr v).
  unfold Rabs; destruct (Rcase_abs _); nra.
Qed.

Lemma abs_vy_le_norm3 (v : Vec3) : Rabs (vy v) <= norm3 v.
Proof.
  pose proof (norm3_nonneg v); pose proof (norm3_sqr v).
  unfold Rabs; destruct (Rcase_abs _); nra.
Qed.

Lemma abs_vz_le_norm3 (v : Vec3) : Rabs (vz v) <= norm3 v.
Proof.
  pose proof (norm3_nonneg v); pose proof (norm3_sqr v).
  unfold Rabs; destruct (Rcase_abs _); nra.
Qed.

(** A vector scaled by [k] stays within [|k - 1| * norm] of itself. *)
Lemma close3_rescaled (tol k : R) (v w : Vec3) :
  vx w = vx v * k -> vy w = vy v * k -> vz w = vz v * k ->
  Rabs (k - 1) * norm3 v <= tol -> close3 tol w v.
Proof.
  intros Ex Ey Ez Hk. unfold close3, close. rewrite Ex, Ey, Ez.
  pose proof (Rabs_pos (k - 1)) as Hk0.
  pose proof (abs_vx_le_norm3 v). pose proof (abs_vy_le_norm3 v).
  pose proof (abs_vz_le_norm3 v).
  repeat split.
  - replace (vx v * k - vx v) with (vx v * (k - 1)) by ring.
    rewrite Rabs_mult. pose proof (Rabs_pos (vx v)). nra.
  - replace (vy v * k - vy v) with (vy v * (k - 1)) by ring.
    rewrite Rabs_mult. pose proof (Rabs_pos (vy v)). nra.
  - replace (vz v * k - vz v) with (vz v * (k - 1)) by ring.
    rewrite Rabs_mult. pose proof (Rabs_pos (vz v)). nra.
Qed.

(** ... and at Euclidean distance [|k - 1| * norm] from itself. *)
Lemma dist_rescaled (k : R) (v w : Vec3) :
  vx w = vx v * k -> vy w = vy v * k -> vz w = vz v * k ->
  norm3 (v3sub w v) = norm3 v * Rabs (k - 1).
Proof.
  intros Ex Ey Ez. rewrite <- norm3_scale. f_equal.
  unfold v3sub, v3scale. rewrite Ex, Ey, Ez. f_equal; ring.
Qed.

Lemma close_and_near_rescaled (tol k : R) (v w : Vec3) :
  vx w = vx v * k -> vy w = vy v * k -> vz w = vz v * k ->
  Rabs (k - 1) * norm3 v <= tol ->
  close3 tol w v /\ norm3 (v3sub w v) <= tol.
Proof.
  intros Ex Ey Ez Hk. split.
  - now apply close3_rescaled with (k := k).
  - rewrite (dist_rescaled k) by assumption. lra.
Qed.

Lemma smallBranchNorm_bounds (v : Vec3) :
  norm3 v < 1e-10 -> 1 <= smallBranchNorm v < 2.
Proof.
  intros Ha. pose proof PI2_1 as Hpi.
  pose proof (norm3_nonneg v) as Ha0. pose proof (norm3_sqr v) as Hsq.
  set (a := norm3 v) in *.
  assert (Hn0 : 0 <= smallBranchNorm v) by apply sqrt_pos.
  assert (Hn2 : smallBranchNorm v * smallBranchNorm v = a * a + cos (a / 2) * cos (a / 2)).
  { unfold smallBranchNorm, norm4; simpl. fold a.
    rewrite sqrt_sqrt by nra. rewrite Hsq. ring. }
  pose proof (sin2_cos2 (a / 2)) as Hsc. unfold Rsqr in Hsc.
  pose proof (sin_sqr_le (a / 2) ltac:(lra) ltac:(lra)) as Hs.
  split; nra.
Qed.

Lemma roundtrip_small (v : Vec3) :
  norm3 v < 1e-10 ->
  quatToRotVec (rotVecToQuat v) = v3scale (v3div v (smallBranchNorm v)) 2.
Proof.
  intros Ha. pose proof (smallBranchNorm_bounds v Ha) as Hn.
  pose proof (norm3_nonneg v) as Ha0.
  unfold rotVecToQuat.
  destruct (Rle_dec 1e-10 (norm3 v)); [lra|].
  unfold normalize4. fold (smallBranchNorm v).
  destruct (Rlt_dec 0 (smallBranchNorm v)); [|lra].
  rewrite quatToRotVec_small; [reflexivity|].
  change (vecPart _) with (v3div v (smallBranchNorm v)).
  rewrite norm3_div.
  rewrite Rabs_pos_eq by (left; apply Rinv_0_lt_compat; lra).
  assert (/ smallBranchNorm v <= 1).
  { rewrite <- Rinv_1. apply Rinv_le_contravar; lra. }
  assert (0 < / smallBranchNorm v) by (apply Rinv_0_lt_compat; lra).
  nra.
Qed.

(** On its first branch [rotVecToQuat] builds a quaternion of norm 1, which
    the normalization leaves as it is up to the division by 1. *)
Lemma rotVecToQuat_large (v : Vec3) :
  1e-10 <= norm3 v ->
  rotVecToQuat v =
  Q4 (sin (norm3 v / 2) / norm3 v * vx v / 1) (sin (norm3 v / 2) / norm3 v * vy v / 1)
     (sin (norm3 v / 2) / norm3 v * vz v / 1) (cos (norm3 v / 2) / 1).
Proof.
  intros Ha. pose proof (norm3_sqr v) as Hsq.
  unfold rotVecToQuat.
  destruct (Rle_dec 1e-10 (norm3 v)); [|lra].
  unfold normalize4.
  assert (Hn : norm4 (Q4 (vx (v3lscale (sin (norm3 v / 2) / norm3 v) v))
                         (vy (v3lscale (sin (norm3 v / 2) / norm3 v) v))
                         (vz (v3lscale (sin (norm3 v / 2) / norm3 v) v))
                         (cos (norm3 v / 2))) = 1).
  { unfold norm4, v3lscale; simpl.
    pose proof (sin2_cos2 (norm3 v / 2)) as Hsc. unfold Rsqr in Hsc.
    set (a := norm3 v) in *. set (s := sin (a / 2)) in *. set (c := cos (a / 2)) in *.
    replace (s / a * vx v * (s / a * vx v) + s / a * vy v * (s / a * vy v)
             + s / a * vz v * (s / a * vz v) + c * c)
      with (s * s * ((vx v * vx v + vy v * vy v + vz v * vz v) / (a * a)) + c * c)
      by (field; lra).
    rewrite <- Hsq.
    replace (s * s * (a * a / (a * a)) + c * c) with (s * s + c * c) by (field; lra).
    rewrite Hsc. apply sqrt_1. }
  rewrite Hn.
  destruct (Rlt_dec 0 1); [reflexivity | lra].
Qed.

Lemma rotVecToQuat_large_vecPart_norm (v : Vec3) :
  1e-10 <= norm3 v -> norm3 v < 2 * PI ->
  norm3 (vecPart (rotVecToQuat v)) = sin (norm3 v / 2).
Proof.
  intros Ha Hpi. rewrite rotVecToQuat_large by assumption.
  assert (Hs : 0 < sin (norm3 v / 2)) by (apply sin_gt_0; lra).
  replace (vecPart _) with (v3scale v (sin (norm3 v / 2) / norm3 v))
    by (unfold vecPart, v3scale; simpl; f_equal; field; lra).
  rewrite norm3_scale.
  rewrite Rabs_pos_eq by (left; apply Rdiv_lt_0_compat; lra).
  field; lra.
Qed.

Lemma roundtrip_exact (v : Vec3) :
  norm3 v < PI -> 1e-10 <= sin (norm3 v / 2) ->
  quatToRotVec (rotVecToQuat v) = v.
Proof.
  intros Hpi Hs. pose proof (norm3_nonneg v) as Ha0. pose proof PI2_1 as Hp.
  assert (Ha : 1e-10 <= norm3 v).
  { destruct (Rle_dec 1e-10 (norm3 v)); [assumption|].
    pose proof (sin_sqr_le (norm3 v / 2) ltac:(lra) ltac:(lra)).
    pose proof (sin_ge_0 (norm3 v / 2) ltac:(lra) ltac:(lra)). nra. }
  pose proof (rotVecToQuat_large_vecPart_norm v Ha ltac:(lra)) as Hn.
  rewrite quatToRotVec_large by (rewrite Hn; assumption).
  rewrite Hn. rewrite rotVecToQuat_large by assumption.
  unfold vecPart, v3div, v3scale; simpl.
  replace (cos (norm3 v / 2) / 1) with (1 * cos (norm3 v / 2)) by field.
  replace (sin (norm3 v / 2)) with (1 * sin (norm3 v / 2)) at 2 5 8 by ring.
  rewrite atan2_sin_cos by lra.
  destruct v as [x y z]; simpl in *. f_equal; field; lra.
Qed.

Lemma roundtrip_large_tiny_sine (v : Vec3) :
  1e-10 <= norm3 v -> norm3 v < PI -> sin (norm3 v / 2) < 1e-10 ->
  quatToRotVec (rotVecToQuat v) = v3scale v (2 * sin (norm3 v / 2) / norm3 v).
Proof.
  intros Ha Hpi Hs.
  pose proof (rotVecToQuat_large_vecPart_norm v Ha ltac:(lra)) as Hn.
  rewrite quatToRotVec_small by (rewrite Hn; assumption).
  rewrite rotVecToQuat_large by assumption.
  unfold vecPart, v3scale; simpl. f_equal; field; lra.
Qed.

(** C7 (amended): for every rotation vector [v] with [norm(v) < PI], the
    vector [quatToRotVec(rotVecToQuat(v))] is within [1e-9] of [v], in each
    component and in Euclidean distance, in exact real arithmetic; and the
    round trip returns [v] itself whenever [sin(norm(v)/2) >= 1e-10], that is
    outside the two small-angle branches. *)
Theorem rotVec_quat_roundtrip (v : Vec3) :
  norm3 v < PI ->
  (close3 1e-9 (quatToRotVec (rotVecToQuat v)) v /\
   norm3 (v3sub (quatToRotVec (rotVecToQuat v)) v) <= 1e-9) /\
  (1e-10 <= sin (norm3 v / 2) -> quatToRotVec (rotVecToQuat v) = v).
Proof.
  intros Hpi. split; [|now apply roundtrip_exact].
  pose proof (norm3_nonneg v) as Ha0. pose proof PI2_1 as Hp.
  destruct (Rle_dec 1e-10 (sin (norm3 v / 2))) as [Hs|Hs].
  - rewrite roundtrip_exact by assumption.
    apply close_and_near_rescaled with (k := 1); try ring.
    replace (1 - 1) with 0 by ring. rewrite Rabs_R0. lra.
  - destruct (Rle_dec 1e-10 (norm3 v)) as [Ha|Ha].
    + rewrite roundtrip_large_tiny_sine by lra.
      apply close_and_near_rescaled with (k := 2 * sin (norm3 v / 2) / norm3 v);
        try reflexivity.
      pose proof (small_sine_small_angle (norm3 v / 2) ltac:(lra) ltac:(lra) ltac:(lra)).
      pose proof (sin_ge_0 (norm3 v / 2) ltac:(lra) ltac:(lra)) as Hs0.
      pose proof (sin_sqr_le (norm3 v / 2) ltac:(lra) ltac:(lra)) as Hs2.
      assert (Hk : 0 <= 2 * sin (norm3 v / 2) / norm3 v <= 1).
      { split.
        - apply Rmult_le_pos; [lra | left; apply Rinv_0_lt_compat; lra].
        - apply Rmult_le_reg_r with (norm3 v); [lra|].
          replace (2 * sin (norm3 v / 2) / norm3 v * norm3 v)
            with (2 * sin (norm3 v / 2)) by (field; lra).
          nra. }
      assert (Rabs (2 * sin (norm3 v / 2) / norm3 v - 1) <= 1)
        by (unfold Rabs; destruct (Rcase_abs _); lra).
      nra.
    + rewrite roundtrip_small by lra.
      pose proof (smallBranchNorm_bounds v ltac:(lra)) as Hn.
      apply close_and_near_rescaled with (k := 2 / smallBranchNorm v);
        try (simpl; field; lra).
      assert (Hk : 1 < 2 / smallBranchNorm v <= 2).
      { split.
        - apply Rmult_lt_reg_r with (smallBranchNorm v); [lra|].
          replace (2 / smallBranchNorm v * smallBranchNorm v) with 2 by (field; lra).
          lra.
        - apply Rmult_le_reg_r with (smallBranchNorm v); [lra|].
          replace (2 / smallBranchNorm v * smallBranchNorm v) with 2 by (field; lra).
          lra. }
      assert (Rabs (2 / smallBranchNorm v - 1) <= 1)
        by (unfold Rabs; destruct (Rcase_abs _); lra).
      nra.
Qed.

Lemma rotVec_quat_roundtrip_witness :
  (close3 1e-9 (quatToRotVec (rotVecToQuat (V3 1 0 0))) (V3 1 0 0) /\
   norm3 (v3sub (quatToRotVec (rotVecToQuat (V3 1 0 0))) (V3 1 0 0)) <= 1e-9) /\
  quatToRotVec (rotVecToQuat (V3 1 0 0)) = V3 1 0 0.
Proof.
  pose proof PI2_1 as Hp.
  assert (H1 : norm3 (V3 1 0 0) = 1) by (apply norm3_axis; lra).
  assert (Hlt : norm3 (V3 1 0 0) < PI) by (rewrite H1; lra).
  split.
  - apply (rotVec_quat_roundtrip (V3 1 0 0) Hlt).
  - apply (rotVec_quat_roundtrip (V3 1 0 0) Hlt).
    rewrite H1.
    pose proof (sin_cubic_lower (1 / 2) ltac:(lra) ltac:(lra)). lra.
Defined.

(** C7 as stated fails in exact arithmetic: the rotation vector
    [(1e-11, 0, 0)], of norm below [PI], comes back with a first component
    above [1e-11]. *)
Lemma rotVec_quat_roundtrip_not_exact :
  norm3 (V3 1e-11 0 0) < PI /\
  vx (V3 1e-11 0 0) < vx (quatToRotVec (rotVecToQuat (V3 1e-11 0 0))).
Proof.
  pose proof PI2_1 as Hp.
  assert (H1 : norm3 (V3 1e-11 0 0) = 1e-11) by (apply norm3_axis; lra).
  split; [rewrite H1; lra|].
  rewrite roundtrip_small by (rewrite H1; lra).
  pose proof (smallBranchNorm_bounds (V3 1e-11 0 0) ltac:(rewrite H1; lra)) as Hn.
  unfold v3scale, v3div; simpl.
  assert (1 < 2 / smallBranchNorm (V3 1e-11 0 0)).
  { apply Rmult_lt_reg_r with (smallBranchNorm (V3 1e-11 0 0)); [lra|].
    replace (2 / smallBranchNorm (V3 1e-11 0 0) * smallBranchNorm (V3 1e-11 0 0))
      with 2 by (field; lra).
    lra. }
  replace (1e-11 / smallBranchNorm (V3 1e-11 0 0) * 2)
    with (1e-11 * (2 / smallBranchNorm (V3 1e-11 0 0))) by (field; lra).
  nra.
Qed.

(** ** Euler angles *)

(** The polynomial identities behind the two inverse functions, on the
    cosines and sines of the three half angles. *)
Section HalfAngles.
Variables ca sa cb sb cc sc : R.
Hypothesis Ha : sa * sa + ca * ca = 1.
Hypothesis Hb : sb * sb + cb * cb = 1.
Hypothesis Hc : sc * sc + cc * cc = 1.

(** On the four components written by [yprToQuat]: *)

Lemma ypr_roll_num :
  2 * (- (ca * cb * cc + sb * sc * sa) * (ca * sb * sc - cb * cc * sa) + (- ca * sb * cc - cb * sc * sa) * (- ca * cb * sc + sb * cc * sa))
  = (cb * cb - sb * sb) * (2 * sa * ca).
Proof.
  transitivity ((cb * cb - sb * sb) * (2 * sa * ca) * (sc * sc + cc * cc));
    [ring | rewrite Hc; ring].
Qed.

Lemma ypr_roll_den :
  1 - 2 * ((ca * sb * sc - cb * cc * sa) ^ 2 + (- ca * sb * cc - cb * sc * sa) ^ 2)
  = (cb * cb - sb * sb) * (ca * ca - sa * sa).
Proof.
  transitivity ((sa * sa + ca * ca) * (sb * sb + cb * cb) * (sc * sc + cc * cc)
                - 2 * ((ca * sb * sc - cb * cc * sa) ^ 2
                       + (- ca * sb * cc - cb * sc * sa) ^ 2));
    [rewrite Ha, Hb, Hc; ring|].
  transitivity ((cb * cb - sb * sb) * (ca * ca - sa * sa) * (sc * sc + cc * cc));
    [ring | rewrite Hc; ring].
Qed.

Lemma ypr_pitch_arg :
  2 * (- (ca * cb * cc + sb * sc * sa) * (- ca * sb * cc - cb * sc * sa) - (ca * sb * sc - cb * cc * sa) * (- ca * cb * sc + sb * cc * sa))
  = 2 * sb * cb.
Proof.
  transitivity (2 * sb * cb * (sa * sa + ca * ca) * (sc * sc + cc * cc));
    [ring | rewrite Ha, Hc; ring].
Qed.

Lemma ypr_yaw_num :
  2 * (- (ca * cb * cc + sb * sc * sa) * (- ca * cb * sc + sb * cc * sa) + (ca * sb * sc - cb * cc * sa) * (- ca * sb * cc - cb * sc * sa))
  = (cb * cb - sb * sb) * (2 * sc * cc).
Proof.
  transitivity ((cb * cb - sb * sb) * (2 * sc * cc) * (sa * sa + ca * ca));
    [ring | rewrite Ha; ring].
Qed.

Lemma ypr_yaw_den :
  1 - 2 * ((- ca * sb * cc - cb * sc * sa) ^ 2 + (- ca * cb * sc + sb * cc * sa) ^ 2)
  = (cb * cb - sb * sb) * (cc * cc - sc * sc).
Proof.
  transitivity ((sa * sa + ca * ca) * (sb * sb + cb * cb) * (sc * sc + cc * cc)
                - 2 * ((- ca * sb * cc - cb * sc * sa) ^ 2
                       + (- ca * cb * sc + sb * cc * sa) ^ 2));
    [rewrite Ha, Hb, Hc; ring|].
  transitivity ((cb * cb - sb * sb) * (cc * cc - sc * sc) * (sa * sa + ca * ca));
    [ring | rewrite Ha; ring].
Qed.

(** On the four components written by [rpyToQuat]: *)

(** The first output of [quatToRpy] sees the third angle ... *)
Lemma rpy_first_num :
  2 * (- (- ca * sb * sc - cb * cc * sa) * (- ca * sb * cc + cb * sc * sa) - (ca * cb * cc - sb * sc * sa) * (- ca * cb * sc - sb * cc * sa))
  = (cb * cb - sb * sb) * (2 * sc * cc).
Proof.
  transitivity ((cb * cb - sb * sb) * (2 * sc * cc) * (sa * sa + ca * ca));
    [ring | rewrite Ha; ring].
Qed.

Lemma rpy_first_den :
  (- ca * sb * sc - cb * cc * sa) ^ 2 + (ca * cb * cc - sb * sc * sa) ^ 2 - (- ca * cb * sc - sb * cc * sa) ^ 2 - (- ca * sb * cc + cb * sc * sa) ^ 2
  = (cb * cb - sb * sb) * (cc * cc - sc * sc).
Proof.
  transitivity ((cb * cb - sb * sb) * (cc * cc - sc * sc) * (sa * sa + ca * ca));
    [ring | rewrite Ha; ring].
Qed.

Lemma rpy_pitch_arg :
  2 * ((- ca * cb * sc - sb * cc * sa) * (- ca * sb * sc - cb * cc * sa) - (ca * cb * cc - sb * sc * sa) * (- ca * sb * cc + cb * sc * sa))
  = 2 * sb * cb.
Proof.
  transitivity (2 * sb * cb * (sa * sa + ca * ca) * (sc * sc + cc * cc));
    [ring | rewrite Ha, Hc; ring].
Qed.

(** ... and the third output sees the first angle. *)
Lemma rpy_third_num :
  -2 * (- ca * cb * sc - sb * cc * sa) * (- ca * sb * cc + cb * sc * sa) - 2 * (ca * cb * cc - sb * sc * sa) * (- ca * sb * sc - cb * cc * sa)
  = (cb * cb - sb * sb) * (2 * sa * ca).
Proof.
  transitivity ((cb * cb - sb * sb) * (2 * sa * ca) * (sc * sc + cc * cc));
    [ring | rewrite Hc; ring].
Qed.

Lemma rpy_third_den :
  (- ca * cb * sc - sb * cc * sa) ^ 2 + (ca * cb * cc - sb * sc * sa) ^ 2 - (- ca * sb * sc - cb * cc * sa) ^ 2 - (- ca * sb * cc + cb * sc * sa) ^ 2
  = (cb * cb - sb * sb) * (ca * ca - sa * sa).
Proof.
  transitivity ((cb * cb - sb * sb) * (ca * ca - sa * sa) * (sc * sc + cc * cc));
    [ring | rewrite Hc; ring].
Qed.
End HalfAngles.

Lemma sin_half (x : R) : sin x = 2 * sin (x / 2) * cos (x / 2).
Proof. rewrite <- sin_2a. f_equal. field. Qed.

Lemma cos_half (x : R) :
  cos x = cos (x / 2) * cos (x / 2) - sin (x / 2) * sin (x / 2).
Proof. rewrite <- cos_2a. f_equal. field. Qed.

Lemma sin_cos_one (x : R) : sin x * sin x + cos x * cos x = 1.
Proof. exact (sin2_cos2 x). Qed.

Lemma quatToYpr_yprToQuat_args (v : Vec3) :
  quatToYpr (yprToQuat v) =
  V3 (atan2 (cos (vy v) * sin (vx v)) (cos (vy v) * cos (vx v)))
     (asin (sin (vy v)))
     (atan2 (cos (vy v) * sin (vz v)) (cos (vy v) * cos (vz v))).
Proof.
  destruct v as [phi theta psi].
  unfold quatToYpr, yprToQuat, qget, vget; cbv zeta; simpl qx; simpl qy;
    simpl qz; simpl qw; simpl vx; simpl vy; simpl vz.
  rewrite (sin_half phi), (cos_half phi), (sin_half theta), (cos_half theta),
    (sin_half psi), (cos_half psi).
  pose proof (sin_cos_one (phi / 2)) as Ha.
  pose proof (sin_cos_one (theta / 2)) as Hb.
  pose proof (sin_cos_one (psi / 2)) as Hc.
  rewrite (ypr_roll_num _ _ _ _ _ _ Hc), (ypr_roll_den _ _ _ _ _ _ Ha Hb Hc),
    (ypr_pitch_arg _ _ _ _ _ _ Ha Hc), (ypr_yaw_num _ _ _ _ _ _ Ha),
    (ypr_yaw_den _ _ _ _ _ _ Ha Hb Hc).
  reflexivity.
Qed.

Lemma quatToRpy_rpyToQuat_args (v : Vec3) :
  quatToRpy (rpyToQuat v) =
  V3 (atan2 (cos (vy v) * sin (vz v)) (cos (vy v) * cos (vz v)))
     (asin (sin (vy v)))
     (atan2 (cos (vy v) * sin (vx v)) (cos (vy v) * cos (vx v))).
Proof.
  destruct v as [phi theta psi].
  unfold quatToRpy, rpyToQuat, qget, vget; cbv zeta; simpl qx; simpl qy;
    simpl qz; simpl qw; simpl vx; simpl vy; simpl vz.
  rewrite (sin_half phi), (cos_half phi), (sin_half theta), (cos_half theta),
    (sin_half psi), (cos_half psi).
  pose proof (sin_cos_one (phi / 2)) as Ha.
  pose proof (sin_cos_one (theta / 2)) as Hb.
  pose proof (sin_cos_one (psi / 2)) as Hc.
  rewrite (rpy_first_num _ _ _ _ _ _ Ha), (rpy_first_den _ _ _ _ _ _ Ha),
    (rpy_pitch_arg _ _ _ _ _ _ Ha Hc), (rpy_third_num _ _ _ _ _ _ Hc),
    (rpy_third_den _ _ _ _ _ _ Hc).
  reflexivity.
Qed.

(** C4: for every angle triple with each component strictly between [-PI/2]
    and [PI/2], [quatToYpr(yprToQuat(v))] is [v], while
    [quatToRpy(rpyToQuat(v))] is [v] with its first and third components
    exchanged: the roll-pitch-yaw pair is not a forward/inverse pair. *)
Theorem euler_roundtrips (v : Vec3) :
  - (PI / 2) < vx v < PI / 2 ->
  - (PI / 2) < vy v < PI / 2 ->
  - (PI / 2) < vz v < PI / 2 ->
  quatToYpr (yprToQuat v) = v /\
  quatToRpy (rpyToQuat v) = V3 (vz v) (vy v) (vx v).
Proof.
  intros Hx Hy Hz.
  assert (Hc : 0 < cos (vy v)) by (apply cos_gt_0; lra).
  rewrite quatToYpr_yprToQuat_args, quatToRpy_rpyToQuat_args.
  rewrite !atan2_sin_cos by assumption.
  rewrite asin_sin by lra.
  destruct v; split; reflexivity.
Qed.

Lemma euler_roundtrips_witness :
  quatToYpr (yprToQuat (V3 1 0 0)) = V3 1 0 0 /\
  quatToRpy (rpyToQuat (V3 1 0 0)) = V3 0 0 1.
Proof.
  pose proof PI2_1 as Hp.
  apply (euler_roundtrips (V3 1 0 0)); simpl; lra.
Defined.

(** ** The tangent vector as an indexed column *)

Lemma forLoop_S {S : Type} (n : nat) (body : nat -> S -> S) (s : S) :
  forLoop (Datatypes.S n) body s = body n (forLoop n body s).
Proof. unfold forLoop. rewrite seq_S, fold_left_app. reflexivity. Qed.

Lemma length_setCoeff (d : LieA) (i : nat) (x : R) :
  length (setCoeff d i x) = length d.
Proof.
  revert i; induction d as [|h t IH]; intros [|i]; simpl; auto.
Qed.

Lemma coeff_setCoeff_same (d : LieA) (i : nat) (x : R) :
  (i < length d)%nat -> coeff (setCoeff d i x) i = x.
Proof.
  unfold coeff. revert i; induction d as [|h t IH]; intros [|i] Hi; simpl in *;
    try lia; auto.
  apply IH; lia.
Qed.

Lemma coeff_setCoeff_other (d : LieA) (i j : nat) (x : R) :
  j <> i -> coeff (setCoeff d i x) j = coeff d j.
Proof.
  unfold coeff. revert i j; induction d as [|h t IH]; intros [|i] [|j] Hij; simpl;
    try reflexivity; try lia.
  apply IH; lia.
Qed.

Lemma length_setBlock3 (d : LieA) (k : nat) (v : Vec3) :
  length (setBlock3 d k v) = length d.
Proof. unfold setBlock3. now rewrite !length_setCoeff. Qed.

Lemma block3_setBlock3_same (d : LieA) (k : nat) (v : Vec3) :
  (k + 3 <= length d)%nat -> block3 (setBlock3 d k v) k = v.
Proof.
  intros Hk. unfold block3, setBlock3. destruct v as [x y z]; simpl.
  f_equal.
  - rewrite !coeff_setCoeff_other by lia. apply coeff_setCoeff_same; lia.
  - rewrite coeff_setCoeff_other by lia.
    apply coeff_setCoeff_same. rewrite length_setCoeff; lia.
  - apply coeff_setCoeff_same. rewrite !length_setCoeff; lia.
Qed.

Lemma coeff_setBlock3_other (d : LieA) (k j : nat) (v : Vec3) :
  (j < k \/ k + 3 <= j)%nat -> coeff (setBlock3 d k v) j = coeff d j.
Proof.
  intros Hj. unfold setBlock3. rewrite !coeff_setCoeff_other by lia. reflexivity.
Qed.

Lemma block3_setBlock3_other (d : LieA) (k p : nat) (v : Vec3) :
  (p + 3 <= k \/ k + 3 <= p)%nat -> block3 (setBlock3 d k v) p = block3 d p.
Proof.
  intros Hp. unfold block3. rewrite !coeff_setBlock3_other by lia. reflexivity.
Qed.

(** The loop that writes one coefficient per index. *)
Section ScalarLoop.
Variable f : nat -> R.

Lemma scalarLoop_length (n : nat) (t : LieA) :
  length (forLoop n (fun i t => setCoeff t i (f i)) t) = length t.
Proof.
  induction n as [|n IH]; [reflexivity|].
  rewrite forLoop_S, length_setCoeff. exact IH.
Qed.

Lemma scalarLoop_coeff_in (n : nat) (t : LieA) (j : nat) :
  (n <= length t)%nat -> (j < n)%nat ->
  coeff (forLoop n (fun i t => setCoeff t i (f i)) t) j = f j.
Proof.
  induction n as [|n IH]; intros Hn Hj; [lia|].
  rewrite forLoop_S.
  destruct (Nat.eq_dec j n) as [->|Hne].
  - apply coeff_setCoeff_same. rewrite scalarLoop_length; lia.
  - rewrite coeff_setCoeff_other by assumption. apply IH; lia.
Qed.

Lemma scalarLoop_coeff_out (n : nat) (t : LieA) (j : nat) :
  (n <= j)%nat ->
  coeff (forLoop n (fun i t => setCoeff t i (f i)) t) j = coeff t j.
Proof.
  induction n as [|n IH]; intros Hj; [reflexivity|].
  rewrite forLoop_S, coeff_setCoeff_other by lia. apply IH; lia.
Qed.
End ScalarLoop.

(** The loops that write one block of three coefficients per index, from
    the offset [b] on. *)
Section BlockLoop.
Variable b : nat.
Variable g : nat -> Vec3.

Lemma blockLoop_length (m : nat) (t : LieA) :
  length (forLoop m (fun i t => setBlock3 t (b + i * 3) (g i)) t) = length t.
Proof.
  induction m as [|m IH]; [reflexivity|].
  rewrite forLoop_S, length_setBlock3. exact IH.
Qed.

Lemma blockLoop_block_in (m : nat) (t : LieA) (i : nat) :
  (b + m * 3 <= length t)%nat -> (i < m)%nat ->
  block3 (forLoop m (fun i t => setBlock3 t (b + i * 3) (g i)) t) (b + i * 3) = g i.
Proof.
  induction m as [|m IH]; intros Hm Hi; [lia|].
  rewrite forLoop_S.
  destruct (Nat.eq_dec i m) as [->|Hne].
  - apply block3_setBlock3_same. rewrite blockLoop_length; lia.
  - rewrite block3_setBlock3_other by lia. apply IH; lia.
Qed.

Lemma blockLoop_coeff_out (m : nat) (t : LieA) (j : nat) :
  (j < b \/ b + m * 3 <= j)%nat ->
  coeff (forLoop m (fun i t => setBlock3 t (b + i * 3) (g i)) t) j = coeff t j.
Proof.
  induction m as [|m IH]; intros Hj; [reflexivity|].
  rewrite forLoop_S, coeff_setBlock3_other by lia. apply IH; lia.
Qed.

Lemma blockLoop_block_out (m : nat) (t : LieA) (p : nat) :
  (p + 3 <= b \/ b + m * 3 <= p)%nat ->
  block3 (forLoop m (fun i t => setBlock3 t (b + i * 3) (g i)) t) p = block3 t p.
Proof.
  intros Hp. unfold block3. rewrite !blockLoop_coeff_out by lia. reflexivity.
Qed.
End BlockLoop.

(** ** Difference and retraction of the manifold state *)

Lemma map_seq_nth {A : Type} (f : nat -> A) (l : list A) (d : A) (n : nat) :
  length l = n ->
  (forall i, (i < n)%nat -> f i = nth i l d) ->
  map f (seq 0 n) = l.
Proof.
  intros Hl Hf. apply nth_ext with (d := f 0%nat) (d' := d).
  - now rewrite length_map, length_seq.
  - intros k Hk. rewrite length_map, length_seq in Hk.
    rewrite map_nth, seq_nth by assumption. apply Hf, Hk.
Qed.

Lemma nth_map_seq {A : Type} (f : nat -> A) (d : A) (n i : nat) :
  (i < n)%nat -> nth i (map f (seq 0 n)) d = f i.
Proof.
  intros Hi. rewrite nth_indep with (d' := f 0%nat)
    by (rewrite length_map, length_seq; assumption).
  rewrite map_nth, seq_nth by assumption. reflexivity.
Qed.

Lemma getDim_shape (N M L : nat) (x : LieG) :
  hasShape N M L x -> getDim x = (N + 3 * M + 3 * L)%nat.
Proof. intros (H1 & H2 & H3). unfold getDim. lia. Qed.

Lemma LieG_minus_length (x y : LieG) : length (LieG_minus x y) = getDim x.
Proof.
  unfold LieG_minus; cbv zeta.
  rewrite !blockLoop_length, scalarLoop_length. apply repeat_length.
Qed.

Lemma coeff_of_block3 (d : LieA) (p k : nat) (v : Vec3) :
  block3 d p = v -> (k < 3)%nat -> coeff d (p + k) = vget v k.
Proof.
  intros Hb Hk. unfold block3 in Hb. subst v.
  destruct k as [|[|[|k]]]; simpl; try lia;
    [now rewrite Nat.add_0_r | reflexivity | reflexivity].
Qed.

Lemma split_index (b j : nat) :
  (b <= j)%nat -> exists i k : nat, j = (b + i * 3 + k)%nat /\ (k < 3)%nat.
Proof.
  intros Hj. exists ((j - b) / 3)%nat, ((j - b) mod 3)%nat.
  pose proof (Nat.div_mod_eq (j - b) 3).
  pose proof (Nat.mod_upper_bound (j - b) 3 ltac:(lia)).
  lia.
Qed.

Lemma NQuat_mul_identity_inverse :
  NQuat_mul NQuat_identity (NQuat_inverse NQuat_identity) = NQuat_identity.
Proof.
  unfold NQuat_mul, NQuat_inverse, NQuat_identity, quatInverse, nqget; simpl.
  f_equal. f_equal; ring.
Qed.

Section MatchingShapes.
Variables N M L : nat.
Variables x y : LieG.
Hypothesis Hx : hasShape N M L x.
Hypothesis Hy : hasShape N M L y.

Lemma LieG_minus_scalar (i : nat) :
  (i < N)%nat -> coeff (LieG_minus x y) i = scalarAt x i - scalarAt y i.
Proof.
  intros Hi. pose proof (getDim_shape _ _ _ _ Hx) as Hd.
  destruct Hy as (H1 & H2 & H3).
  unfold LieG_minus; cbv zeta. rewrite H1, H2, H3, Hd.
  rewrite !blockLoop_coeff_out by lia.
  apply (scalarLoop_coeff_in (fun i => scalarAt x i - scalarAt y i)).
  - rewrite repeat_length; lia.
  - assumption.
Qed.

Lemma LieG_minus_vector (i : nat) :
  (i < M)%nat ->
  block3 (LieG_minus x y) (N + i * 3) = v3sub (vectorAt x i) (vectorAt y i).
Proof.
  intros Hi. pose proof (getDim_shape _ _ _ _ Hx) as Hd.
  destruct Hy as (H1 & H2 & H3).
  unfold LieG_minus; cbv zeta. rewrite H1, H2, H3, Hd.
  rewrite blockLoop_block_out by lia.
  apply (blockLoop_block_in N (fun i => v3sub (vectorAt x i) (vectorAt y i))).
  - rewrite scalarLoop_length, repeat_length; lia.
  - assumption.
Qed.

Lemma LieG_minus_quat (i : nat) :
  (i < L)%nat ->
  block3 (LieG_minus x y) (N + M * 3 + i * 3) =
  NquatToRotVec (NQuat_mul (quatAt x i) (NQuat_inverse (quatAt y i))).
Proof.
  intros Hi. pose proof (getDim_shape _ _ _ _ Hx) as Hd.
  destruct Hy as (H1 & H2 & H3).
  unfold LieG_minus; cbv zeta. rewrite H1, H2, H3, Hd.
  apply (blockLoop_block_in (N + M * 3)
           (fun i => NquatToRotVec (NQuat_mul (quatAt x i) (NQuat_inverse (quatAt y i))))).
  - rewrite blockLoop_length, scalarLoop_length, repeat_length; lia.
  - assumption.
Qed.



End MatchingShapes.

(** Where every quaternion slot holds the identity, as after [reset], the
    whole of [x - x] is zero. *)
Lemma LieG_minus_self_identity_quats (N M L : nat) (x : LieG) :
  hasShape N M L x ->
  (forall i, (i < L)%nat -> quatAt x i = NQuat_identity) ->
  LieG_minus x x = repeat 0 (N + 3 * M + 3 * L).
Proof.
  intros Hx Hq.
  assert (Hlen : length (LieG_minus x x) = (N + 3 * M + 3 * L)%nat)
    by (rewrite LieG_minus_length; now apply getDim_shape).
  apply nth_ext with (d := 0) (d' := 0); [now rewrite repeat_length|].
  intros j Hj. rewrite Hlen in Hj. rewrite nth_repeat.
  change (coeff (LieG_minus x x) j = 0).
  destruct (Nat.lt_ge_cases j N) as [Hs|Hs].
  { rewrite (LieG_minus_scalar N M L x x Hx Hx) by assumption. ring. }
  destruct (Nat.lt_ge_cases j (N + M * 3)) as [Hv|Hv].
  { destruct (split_index N j Hs) as (i & k & -> & Hk).
    rewrite coeff_of_block3 with (v := v3zero); [|
      rewrite (LieG_minus_vector N M L x x Hx Hx) by lia;
      unfold v3sub, v3zero; f_equal; ring | assumption].
    destruct k as [|[|k]]; reflexivity. }
  destruct (split_index (N + M * 3) j Hv) as (i & k & -> & Hk).
  rewrite coeff_of_block3 with (v := v3zero); [| | assumption].
  - destruct k as [|[|k]]; reflexivity.
  - rewrite (LieG_minus_quat N M L x x Hx Hx) by lia.
    rewrite Hq by lia. rewrite NQuat_mul_identity_inverse.
    rewrite NquatToRotVec_quatToRotVec. exact quatToRotVec_identity.
Qed.

Lemma LieG_reset_shape (N M L : nat) : hasShape N M L (LieG_reset N M L).
Proof. unfold hasShape, LieG_reset; simpl. now rewrite !repeat_length. Qed.

(** The state left by [reset] is at difference zero from itself. *)
Lemma LieG_minus_reset (N M L : nat) :
  LieG_minus (LieG_reset N M L) (LieG_reset N M L) = repeat 0 (N + 3 * M + 3 * L).
Proof.
  apply LieG_minus_self_identity_quats; [apply LieG_reset_shape|].
  intros i _. unfold quatAt, LieG_reset; simpl. apply nth_repeat.
Qed.


(** * Further properties of the code *)

(** ** The cross-product matrix *)

(** X1: [vecToSqew(v)] applied to [w] is the cross product of [v] and [w];
    so it sends [v] itself to zero, and its transpose is its opposite on the
    3x3 entries. *)
Theorem vecToSqew_cross (v w : Vec3) :
  mulMV3 (vecToSqew v) w = cross3 v w /\
  mulMV3 (vecToSqew v) v = v3zero /\
  mulMV3 (vecToSqew v) w = v3neg (mulMV3 (vecToSqew w) v) /\
  (forall i j : nat, mtranspose (vecToSqew v) i j = - vecToSqew v i j).
Proof.
  destruct v as [a b c], w as [x y z].
  unfold mulMV3, cross3, v3zero, v3neg, vecToSqew, mat3Of; simpl.
  repeat split; try (f_equal; ring).
  intros i j. unfold mtranspose.
  destruct i as [|[|[|i]]]; destruct j as [|[|[|j]]]; simpl; ring.
Qed.

(** ** The rotation matrix of a quaternion *)

Lemma norm4_normSq4 (q : Quat) : norm4 q = 1 -> normSq4 q = 1.
Proof.
  intros Hn. unfold norm4 in Hn. fold (normSq4 q) in Hn.
  assert (H0 : 0 <= normSq4 q) by (unfold normSq4; nra).
  rewrite <- (sqrt_sqrt (normSq4 q) H0), Hn. ring.
Qed.

Lemma normSq4_norm4 (q : Quat) : normSq4 q = 1 -> norm4 q = 1.
Proof.
  intros Hn. unfold norm4. fold (normSq4 q). rewrite Hn. apply sqrt_1.
Qed.

Lemma quatToRotMat_entries (q : Quat) (i j : nat) :
  (i < 3)%nat -> (j < 3)%nat ->
  quatToRotMat q i j =
  mat3Of (2 * qw q * qw q - 1 + 2 * qx q * qx q)
         (2 * qx q * qy q - 2 * qw q * qz q)
         (2 * qx q * qz q + 2 * qw q * qy q)
         (2 * qy q * qx q + 2 * qw q * qz q)
         (2 * qw q * qw q - 1 + 2 * qy q * qy q)
         (2 * qy q * qz q - 2 * qw q * qx q)
         (2 * qz q * qx q - 2 * qw q * qy q)
         (2 * qz q * qy q + 2 * qw q * qx q)
         (2 * qw q * qw q - 1 + 2 * qz q * qz q) i j.
Proof.
  intros Hi Hj. destruct q as [x y z w].
  unfold quatToRotMat, madd, mlscale, midentity, outer3, vecToSqew, vecPart,
    v3lscale, mat3Of.
  index3 i j; simpl; ring.
Qed.

Lemma quatToRotMat_hom (q : Quat) (i j : nat) :
  normSq4 q = 1 -> (i < 3)%nat -> (j < 3)%nat ->
  quatToRotMat q i j = rotMatHom q i j.
Proof.
  intros Hn Hi Hj. rewrite quatToRotMat_entries by assumption.
  unfold normSq4 in Hn. unfold rotMatHom, mat3Of.
  index3 i j; simpl; lra.
Qed.

Lemma rotMatHom_gram (q : Quat) (i j : nat) :
  (i < 3)%nat -> (j < 3)%nat ->
  mulMM3 (rotMatHom q) (mtranspose (rotMatHom q)) i j
    = normSq4 q * normSq4 q * midentity i j /\
  mulMM3 (mtranspose (rotMatHom q)) (rotMatHom q) i j
    = normSq4 q * normSq4 q * midentity i j.
Proof.
  intros Hi Hj. destruct q as [x y z w].
  unfold mulMM3, mtranspose, rotMatHom, mat3Of, normSq4, midentity.
  index3 i j; simpl; split; ring.
Qed.

(** X2: for a unit quaternion [quatToRotMat(q)] is orthogonal: its products
    with its transpose, on either side, are the identity matrix. *)
Theorem quatToRotMat_orthogonal (q : Quat) :
  norm4 q = 1 ->
  forall i j : nat, (i < 3)%nat -> (j < 3)%nat ->
    mulMM3 (quatToRotMat q) (mtranspose (quatToRotMat q)) i j = midentity i j /\
    mulMM3 (mtranspose (quatToRotMat q)) (quatToRotMat q) i j = midentity i j.
Proof.
  intros Hn i j Hi Hj. apply norm4_normSq4 in Hn.
  destruct (rotMatHom_gram q i j Hi Hj) as [G1 G2].
  rewrite Hn in G1, G2.
  split.
  - rewrite <- (Rmult_1_l (midentity i j)), <- (Rmult_1_l (1 * midentity i j)).
    rewrite <- Rmult_assoc, <- G1.
    unfold mulMM3, mtranspose. rewrite !quatToRotMat_hom by (assumption || lia).
    reflexivity.
  - rewrite <- (Rmult_1_l (midentity i j)), <- (Rmult_1_l (1 * midentity i j)).
    rewrite <- Rmult_assoc, <- G2.
    unfold mulMM3, mtranspose. rewrite !quatToRotMat_hom by (assumption || lia).
    reflexivity.
Qed.

Lemma quatToRotMat_orthogonal_witness :
  mulMM3 (quatToRotMat (Q4 0.6 0 0 0.8)) (mtranspose (quatToRotMat (Q4 0.6 0 0 0.8)))
    1%nat 2%nat = midentity 1%nat 2%nat.
Proof.
  assert (Hn : norm4 (Q4 0.6 0 0 0.8) = 1).
  { apply normSq4_norm4. unfold normSq4; simpl. lra. }
  apply (quatToRotMat_orthogonal (Q4 0.6 0 0 0.8) Hn 1%nat 2%nat); lia.
Defined.

(** X3: the rotation matrix of [quatInverse(q)] is the transpose of that of
    [q], and the rotation matrix of the opposite quaternion [-q] is that of
    [q], for every quaternion. *)
Theorem quatToRotMat_inverse_and_opposite (q : Quat) (i j : nat) :
  (i < 3)%nat -> (j < 3)%nat ->
  quatToRotMat (quatInverse q) i j = mtranspose (quatToRotMat q) i j /\
  quatToRotMat (qneg q) i j = quatToRotMat q i j.
Proof.
  intros Hi Hj. unfold mtranspose.
  rewrite !quatToRotMat_entries by assumption.
  destruct q as [x y z w]. unfold quatInverse, qneg, mat3Of.
  index3 i j; simpl; split; ring.
Qed.

Lemma quatToRotMat_inverse_and_opposite_witness :
  quatToRotMat (quatInverse (Q4 1 2 3 4)) 0%nat 1%nat
    = mtranspose (quatToRotMat (Q4 1 2 3 4)) 0%nat 1%nat.
Proof.
  apply (quatToRotMat_inverse_and_opposite (Q4 1 2 3 4) 0 1); lia.
Defined.

(** X4: the rotation matrix of a unit quaternion leaves the vector part of
    the quaternion, the rotation axis, where it is. *)
Theorem quatToRotMat_fixes_axis (q : Quat) :
  norm4 q = 1 -> mulMV3 (quatToRotMat q) (vecPart q) = vecPart q.
Proof.
  intros Hn. apply norm4_normSq4 in Hn. unfold mulMV3.
  rewrite !quatToRotMat_hom by (assumption || lia).
  destruct q as [x y z w]. unfold normSq4 in Hn; simpl in Hn.
  unfold rotMatHom, mat3Of, vecPart; simpl.
  f_equal.
  - transitivity (x * (x * x + y * y + z * z + w * w)); [ring | rewrite Hn; ring].
  - transitivity (y * (x * x + y * y + z * z + w * w)); [ring | rewrite Hn; ring].
  - transitivity (z * (x * x + y * y + z * z + w * w)); [ring | rewrite Hn; ring].
Qed.

Lemma quatToRotMat_fixes_axis_witness :
  mulMV3 (quatToRotMat (Q4 0.6 0 0 0.8)) (V3 0.6 0 0) = V3 0.6 0 0.
Proof.
  apply (quatToRotMat_fixes_axis (Q4 0.6 0 0 0.8)).
  apply normSq4_norm4. unfold normSq4; simpl. lra.
Defined.

(** ** The multiplication matrices as a product of quaternions *)

(** X5: the identity quaternion is neutral on both sides: [quatL] and
    [quatR] of [quatIdentity()] send every quaternion to itself, and
    [quatL(q)] and [quatR(q)] send the identity to [q]. *)
Theorem quatIdentity_neutral (q : Quat) :
  mulMV4 (quatL quatIdentity) q = q /\
  mulMV4 (quatR quatIdentity) q = q /\
  mulMV4 (quatL q) quatIdentity = q /\
  mulMV4 (quatR q) quatIdentity = q.
Proof.
  rewrite !quatL_entries, !quatR_entries.
  destruct q as [x y z w]; unfold quatIdentity; simpl.
  repeat split; f_equal; ring.
Qed.

(** X6: [quatL(q)] applied to [quatInverse(q)], and [quatL(quatInverse(q))]
    applied to [q], give [(0, 0, 0, |q|^2)]: the identity quaternion exactly
    when [q] is unit, so that [quatInverse] is the inverse on unit
    quaternions only. *)
Theorem quatInverse_product (q : Quat) :
  mulMV4 (quatL q) (quatInverse q) = Q4 0 0 0 (normSq4 q) /\
  mulMV4 (quatL (quatInverse q)) q = Q4 0 0 0 (normSq4 q) /\
  (norm4 q = 1 -> mulMV4 (quatL q) (quatInverse q) = quatIdentity).
Proof.
  assert (E : mulMV4 (quatL q) (quatInverse q) = Q4 0 0 0 (normSq4 q)).
  { rewrite quatL_entries. destruct q as [x y z w].
    unfold quatInverse, normSq4; simpl. f_equal; ring. }
  split; [exact E|]. split.
  - rewrite quatL_entries. destruct q as [x y z w].
    unfold quatInverse, normSq4; simpl. f_equal; ring.
  - intros Hn. rewrite E, (norm4_normSq4 q Hn). reflexivity.
Qed.

Lemma quatInverse_product_witness :
  mulMV4 (quatL (Q4 0.6 0 0 0.8)) (quatInverse (Q4 0.6 0 0 0.8)) = quatIdentity.
Proof.
  apply (quatInverse_product (Q4 0.6 0 0 0.8)).
  apply normSq4_norm4. unfold normSq4; simpl. lra.
Defined.

(** X7: left and right multiplication commute, [quatL(p)] after [quatR(r)]
    is [quatR(r)] after [quatL(p)], and multiplying on the left by [p] and
    then by [r] is multiplying by their product: the product computed by the
    matrices is associative. *)
Theorem quatL_quatR_commute (p r q : Quat) :
  mulMV4 (quatL p) (mulMV4 (quatR r) q) = mulMV4 (quatR r) (mulMV4 (quatL p) q) /\
  mulMV4 (quatL r) (mulMV4 (quatL p) q) = mulMV4 (quatL (mulMV4 (quatL r) p)) q.
Proof.
  rewrite !quatL_entries, !quatR_entries.
  destruct p as [p0 p1 p2 p3], r as [r0 r1 r2 r3], q as [x y z w]; simpl.
  split; f_equal; ring.
Qed.

Lemma normSq4_product (p q : Quat) :
  normSq4 (mulMV4 (quatL p) q) = normSq4 p * normSq4 q.
Proof.
  rewrite quatL_entries.
  destruct p as [p0 p1 p2 p3], q as [x y z w]; unfold normSq4; simpl. ring.
Qed.

Lemma normSq4_nonneg (q : Quat) : 0 <= normSq4 q.
Proof. unfold normSq4. nra. Qed.

(** X8: the norm of the product [quatL(p)] applied to [q] is the product of
    the norms; so the product of unit quaternions is unit. *)
Theorem quatL_norm_multiplicative (p q : Quat) :
  norm4 (mulMV4 (quatL p) q) = norm4 p * norm4 q.
Proof.
  unfold norm4. fold (normSq4 (mulMV4 (quatL p) q)) (normSq4 p) (normSq4 q).
  rewrite normSq4_product. apply sqrt_mult; apply normSq4_nonneg.
Qed.

Lemma rotMatHom_product (p q : Quat) (i j : nat) :
  (i < 3)%nat -> (j < 3)%nat ->
  rotMatHom (mulMV4 (quatL p) q) i j = mulMM3 (rotMatHom p) (rotMatHom q) i j.
Proof.
  intros Hi Hj. rewrite quatL_entries.
  destruct p as [p0 p1 p2 p3], q as [x y z w].
  unfold mulMM3, rotMatHom, mat3Of.
  index3 i j; simpl; ring.
Qed.

(** X9: for unit quaternions the rotation matrix of the product
    [quatL(p)] applied to [q] is the product of the rotation matrices of [p]
    and of [q]: the product rotates by [q] first, then by [p]. *)
Theorem quatToRotMat_product (p q : Quat) :
  norm4 p = 1 -> norm4 q = 1 ->
  forall i j : nat, (i < 3)%nat -> (j < 3)%nat ->
    quatToRotMat (mulMV4 (quatL p) q) i j
    = mulMM3 (quatToRotMat p) (quatToRotMat q) i j.
Proof.
  intros Hp Hq i j Hi Hj.
  apply norm4_normSq4 in Hp. apply norm4_normSq4 in Hq.
  assert (Hpq : normSq4 (mulMV4 (quatL p) q) = 1)
    by (rewrite normSq4_product, Hp, Hq; ring).
  rewrite quatToRotMat_hom by assumption.
  rewrite rotMatHom_product by assumption.
  unfold mulMM3. rewrite !quatToRotMat_hom by (assumption || lia).
  reflexivity.
Qed.

Lemma quatToRotMat_product_witness :
  quatToRotMat (mulMV4 (quatL (Q4 0.6 0 0 0.8)) (Q4 0 1 0 0)) 0%nat 1%nat
  = mulMM3 (quatToRotMat (Q4 0.6 0 0 0.8)) (quatToRotMat (Q4 0 1 0 0)) 0%nat 1%nat.
Proof.
  apply (quatToRotMat_product (Q4 0.6 0 0 0.8) (Q4 0 1 0 0)); try lia.
  - apply normSq4_norm4. unfold normSq4; simpl. lra.
  - apply normSq4_norm4. unfold normSq4; simpl. lra.
Defined.

(** ** Normalization, and the quaternions the conversions build *)

Lemma norm4_div (q : Quat) (n : R) :
  0 < n -> norm4 q = n ->
  norm4 (Q4 (qx q / n) (qy q / n) (qz q / n) (qw q / n)) = 1.
Proof.
  intros Hn Hq. apply normSq4_norm4. unfold normSq4; simpl.
  assert (Hs : normSq4 q = n * n).
  { unfold norm4 in Hq. fold (normSq4 q) in Hq.
    rewrite <- Hq. symmetry. apply sqrt_sqrt, normSq4_nonneg. }
  unfold normSq4 in Hs.
  transitivity ((qx q * qx q + qy q * qy q + qz q * qz q + qw q * qw q) / (n * n));
    [field; lra | rewrite Hs; field; lra].
Qed.

Lemma NQuat_normalize_norm (q : NQuat) : norm4 (q_ (NQuat_normalize q)) = 1.
Proof.
  unfold NQuat_normalize.
  destruct (Rlt_dec 1e-10 (norm4 (q_ q))) as [Ha|Ha].
  - destruct q as [q]; unfold nqget; cbn [q_ qget] in *.
    apply norm4_div; [lra | reflexivity].
  - cbn [q_]. apply normSq4_norm4. unfold normSq4; simpl. ring.
Qed.

(** X10: [NQuat::normalize] always leaves a quaternion of norm 1: where the
    norm [a] is above [1e-10] it is the quaternion with each component
    divided by [a], otherwise it is the identity quaternion (so also at the
    zero quaternion). *)
Theorem NQuat_normalize_unit (q : NQuat) :
  norm4 (q_ (NQuat_normalize q)) = 1 /\
  (1e-10 < norm4 (q_ q) ->
     q_ (NQuat_normalize q)
     = Q4 (qx (q_ q) / norm4 (q_ q)) (qy (q_ q) / norm4 (q_ q))
          (qz (q_ q) / norm4 (q_ q)) (qw (q_ q) / norm4 (q_ q))) /\
  (norm4 (q_ q) <= 1e-10 -> NQuat_normalize q = NQuat_identity).
Proof.
  split; [apply NQuat_normalize_norm|]. split.
  - intros Ha. unfold NQuat_normalize.
    destruct (Rlt_dec 1e-10 (norm4 (q_ q))); [reflexivity | lra].
  - intros Ha. unfold NQuat_normalize.
    destruct (Rlt_dec 1e-10 (norm4 (q_ q))); [lra | reflexivity].
Qed.

Lemma NQuat_normalize_unit_witness :
  NQuat_normalize (NQ (Q4 0 0 0 0)) = NQuat_identity /\
  q_ (NQuat_normalize (NQ (Q4 3 0 0 4))) = Q4 (3 / 5) (0 / 5) (0 / 5) (4 / 5).
Proof.
  assert (H5 : norm4 (Q4 3 0 0 4) = 5).
  { unfold norm4; simpl.
    replace (3 * 3 + 0 * 0 + 0 * 0 + 4 * 4) with (5 * 5) by ring.
    apply sqrt_square; lra. }
  split.
  - apply (NQuat_normalize_unit (NQ (Q4 0 0 0 0))).
    simpl. rewrite norm4_axis by lra. lra.
  - rewrite <- H5 at 1 2 3 4.
    apply (NQuat_normalize_unit (NQ (Q4 3 0 0 4))).
    cbn [q_]. rewrite H5. lra.
Defined.

(** X11: [NQuat::normalize] is idempotent. *)
Theorem NQuat_normalize_idempotent (q : NQuat) :
  NQuat_normalize (NQuat_normalize q) = NQuat_normalize q.
Proof.
  pose proof (NQuat_normalize_norm q) as Hn.
  remember (NQuat_normalize q) as r eqn:Er. clear Er.
  unfold NQuat_normalize. rewrite Hn.
  destruct (Rlt_dec 1e-10 1); [|lra].
  destruct r as [[a b c d]]; unfold nqget; simpl.
  f_equal. f_equal; field.
Qed.

(** X12: the identity quaternion is neutral for the operator [*] of [NQuat]
    on both sides. *)
Theorem NQuat_mul_identity (q : NQuat) :
  NQuat_mul NQuat_identity q = q /\ NQuat_mul q NQuat_identity = q.
Proof.
  destruct q as [[x y z w]].
  unfold NQuat_mul, NQuat_identity, nqget; simpl.
  split; f_equal; f_equal; ring.
Qed.

(** X13: the operator [*] of [NQuat] gives the product computed by
    [quatL] exactly when its left operand has scalar part 1 or its right
    operand has a zero vector part. *)
Theorem NQuat_mul_is_quatL_iff (p q : NQuat) :
  q_ (NQuat_mul p q) = mulMV4 (quatL (q_ p)) (q_ q) <->
  (qw (q_ p) = 1 \/ vecPart (q_ q) = v3zero).
Proof.
  rewrite NQuat_mul_entries. unfold hamilton.
  destruct (mulMV4 (quatL (q_ p)) (q_ q)) as [h0 h1 h2 h3].
  destruct p as [[p0 p1 p2 p3]], q as [[x y z w]]; simpl.
  unfold vecPart, v3zero; simpl. split.
  - intros E. injection E as E0 E1 E2.
    destruct (Req_dec p3 1) as [Hw|Hw]; [now left | right].
    assert (H1 : 1 - p3 <> 0) by lra.
    f_equal; apply (Rmult_eq_reg_l (1 - p3)); try assumption; lra.
  - intros [Hw | Hv].
    + rewrite Hw. f_equal; ring.
    + injection Hv as -> -> ->. f_equal; ring.
Qed.

(** ** [rotVecToQuat] and [NrotVecToQuat] *)

Lemma rotVecToQuat_raw_norm_large (v : Vec3) :
  1e-10 <= norm3 v ->
  norm4 (Q4 (sin (norm3 v / 2) / norm3 v * vx v) (sin (norm3 v / 2) / norm3 v * vy v)
            (sin (norm3 v / 2) / norm3 v * vz v) (cos (norm3 v / 2))) = 1.
Proof.
  intros Ha. pose proof (norm3_sqr v) as Hsq.
  pose proof (sin_cos_one (norm3 v / 2)) as Hsc.
  apply normSq4_norm4. unfold normSq4; simpl.
  set (a := norm3 v) in *. set (s := sin (a / 2)) in *. set (c := cos (a / 2)) in *.
  transitivity (s * s * ((vx v * vx v + vy v * vy v + vz v * vz v) / (a * a)) + c * c);
    [field; lra|].
  rewrite <- Hsq.
  transitivity (s * s + c * c); [field; lra | assumption].
Qed.

Lemma norm4_normalize4 (q : Quat) : 0 < norm4 q -> norm4 (normalize4 q) = 1.
Proof.
  intros Hn. unfold normalize4.
  destruct (Rlt_dec 0 (norm4 q)); [|lra].
  now apply norm4_div.
Qed.

(** X14: [rotVecToQuat] returns a quaternion of norm 1 for every rotation
    vector, on both of its branches. *)
Theorem rotVecToQuat_unit (v : Vec3) : norm4 (rotVecToQuat v) = 1.
Proof.
  unfold rotVecToQuat.
  destruct (Rle_dec 1e-10 (norm3 v)) as [Ha|Ha].
  - apply norm4_normalize4.
    unfold v3lscale; cbn [vx vy vz].
    rewrite rotVecToQuat_raw_norm_large by assumption. lra.
  - apply norm4_normalize4. fold (smallBranchNorm v).
    pose proof (smallBranchNorm_bounds v ltac:(lra)). lra.
Qed.

Lemma NrotVecToQuat_components (v : Vec3) : q_ (NrotVecToQuat v) = rotVecToQuat v.
Proof.
  unfold NrotVecToQuat, rotVecToQuat.
  destruct (Rle_dec 1e-10 (norm3 v)) as [Ha|Ha].
  - unfold NQuat_normalize, normalize4, nqget, v3lscale, vget; cbn [q_ qget vx vy vz qx qy qz qw].
    rewrite rotVecToQuat_raw_norm_large by assumption.
    destruct (Rlt_dec 1e-10 1); [|lra].
    destruct (Rlt_dec 0 1); [|lra]. reflexivity.
  - unfold NQuat_normalize, normalize4, nqget, vget; cbn [q_ qget qx qy qz qw].
    fold (smallBranchNorm v).
    pose proof (smallBranchNorm_bounds v ltac:(lra)) as Hn.
    destruct (Rlt_dec 1e-10 (smallBranchNorm v)); [|lra].
    destruct (Rlt_dec 0 (smallBranchNorm v)); [|lra]. reflexivity.
Qed.


(** ** Quaternion to rotation vector and back *)

Lemma atan_unit_circle (s c : R) :
  c <> 0 -> s * s + c * c = 1 ->
  cos (atan (s / c)) * cos (atan (s / c)) = c * c /\
  sin (atan (s / c)) * c = s * cos (atan (s / c)) /\
  0 < cos (atan (s / c)).
Proof.
  intros Hc Hu.
  pose proof (atan_bound (s / c)) as Hb.
  assert (Hpos : 0 < cos (atan (s / c))) by (apply cos_gt_0; lra).
  pose proof (tan_atan (s / c)) as Ht. unfold tan in Ht.
  pose proof (sin_cos_one (atan (s / c))) as Hsc.
  set (S := sin (atan (s / c))) in *. set (C := cos (atan (s / c))) in *.
  assert (E : S * c = s * C).
  { apply (f_equal (fun t => t * (C * c))) in Ht.
    replace (S / C * (C * c)) with (S * c) in Ht by (field; lra).
    replace (s / c * (C * c)) with (s * C) in Ht by (field; lra).
    exact Ht. }
  repeat split; try assumption.
  assert (E2 : S * c * (S * c) = s * C * (s * C)) by (rewrite E; reflexivity).
  nra.
Qed.

(** On the upper half of the unit circle [atan2] is the angle: its sine and
    cosine are the two coordinates. *)
Lemma atan2_unit_circle (s c : R) :
  0 < s -> s * s + c * c = 1 ->
  sin (atan2 s c) = s /\ cos (atan2 s c) = c.
Proof.
  intros Hs Hu. unfold atan2.
  destruct (Rlt_dec 0 c) as [Hc|Hc].
  - destruct (atan_unit_circle s c ltac:(lra) Hu) as (H1 & H2 & H3).
    assert (cos (atan (s / c)) = c) by nra.
    split; [|assumption]. nra.
  - destruct (Rlt_dec c 0) as [Hc'|Hc'].
    + destruct (Rle_dec 0 s); [|lra].
      destruct (atan_unit_circle s c ltac:(lra) Hu) as (H1 & H2 & H3).
      rewrite neg_sin, neg_cos.
      assert (cos (atan (s / c)) = - c) by nra.
      split; nra.
    + assert (c = 0) by lra. subst c.
      destruct (Rlt_dec 0 s); [|lra].
      rewrite sin_PI2, cos_PI2. split; [nra | reflexivity].
Qed.

Lemma rotVecToQuat_quatToRotVec_unit (q : Quat) :
  norm4 q = 1 -> 1e-10 <= norm3 (vecPart q) ->
  rotVecToQuat (quatToRotVec q) = q.
Proof.
  intros Hn Hs. apply norm4_normSq4 in Hn.
  pose proof (norm3_sqr (vecPart q)) as Hsq.
  assert (Hu : norm3 (vecPart q) * norm3 (vecPart q) + qw q * qw q = 1).
  { rewrite Hsq. unfold normSq4 in Hn. destruct q; simpl in *. lra. }
  assert (Hs0 : 0 < norm3 (vecPart q)) by lra.
  destruct (atan2_unit_circle _ _ Hs0 Hu) as [Es Ec].
  destruct (atan2_upper_half _ (qw q) Hs0) as [Ht0 Ht1].
  pose proof (sin_lt_x _ Ht0) as Hlt. rewrite Es in Hlt.
  pose proof (quatToRotVec_norm_large q Hs) as Hr.
  rewrite rotVecToQuat_large by (rewrite Hr; lra).
  rewrite Hr.
  replace (2 * atan2 (norm3 (vecPart q)) (qw q) / 2)
    with (atan2 (norm3 (vecPart q)) (qw q)) by field.
  rewrite Es, Ec. rewrite quatToRotVec_large by assumption.
  set (s := norm3 (vecPart q)) in *. set (t := atan2 s (qw q)) in *.
  destruct q as [x y z w]; unfold v3div, v3scale, vecPart; simpl.
  f_equal; field; lra.
Qed.

(** X16: for a unit quaternion whose vector part has norm at least [1e-10],
    [rotVecToQuat(quatToRotVec(q))] is [q] itself, whatever the sign of its
    scalar part. *)
Theorem quat_rotVec_roundtrip (q : Quat) :
  norm4 q = 1 -> 1e-10 <= norm3 (vecPart q) ->
  rotVecToQuat (quatToRotVec q) = q.
Proof. apply rotVecToQuat_quatToRotVec_unit. Qed.

Lemma quat_rotVec_roundtrip_witness :
  rotVecToQuat (quatToRotVec (Q4 0.6 0 0 (-0.8))) = Q4 0.6 0 0 (-0.8).
Proof.
  apply (quat_rotVec_roundtrip (Q4 0.6 0 0 (-0.8))).
  - apply normSq4_norm4. unfold normSq4; simpl. lra.
  - change (vecPart (Q4 0.6 0 0 (-0.8))) with (V3 0.6 0 0).
    rewrite norm3_axis by lra. lra.
Defined.

Lemma norm3_neg (v : Vec3) : norm3 (v3neg v) = norm3 v.
Proof.
  unfold norm3, v3neg; simpl. f_equal. ring.
Qed.

(** X17: [quatToRotVec] of [quatInverse(q)] is the opposite of
    [quatToRotVec(q)], for every quaternion and on both branches. *)
Theorem quatToRotVec_inverse (q : Quat) :
  quatToRotVec (quatInverse q) = v3neg (quatToRotVec q).
Proof.
  unfold quatToRotVec.
  change (vecPart (quatInverse q)) with (v3neg (vecPart q)).
  change (qw (quatInverse q)) with (qw q).
  rewrite norm3_neg.
  destruct (Rle_dec 1e-10 (norm3 (vecPart q))).
  - unfold v3neg, v3div, v3scale; simpl. f_equal; unfold Rdiv; ring.
  - unfold v3neg, v3scale; simpl. f_equal; ring.
Qed.

(** ** More on the Euler angles *)

(** X18: [yprToQuat] and [rpyToQuat] return a quaternion of norm 1 for every
    angle triple. *)
Theorem yprToQuat_rpyToQuat_unit (v : Vec3) :
  norm4 (yprToQuat v) = 1 /\ norm4 (rpyToQuat v) = 1.
Proof.
  destruct v as [phi theta psi].
  pose proof (sin_cos_one (phi / 2)) as Ha.
  pose proof (sin_cos_one (theta / 2)) as Hb.
  pose proof (sin_cos_one (psi / 2)) as Hc.
  split; apply normSq4_norm4; unfold normSq4, yprToQuat, rpyToQuat, vget;
    cbv zeta; cbn [qx qy qz qw vx vy vz];
    set (sa := sin (phi / 2)) in *; set (ca := cos (phi / 2)) in *;
    set (sb := sin (theta / 2)) in *; set (cb := cos (theta / 2)) in *;
    set (sc := sin (psi / 2)) in *; set (cc := cos (psi / 2)) in *;
    (transitivity ((sa * sa + ca * ca) * (sb * sb + cb * cb) * (sc * sc + cc * cc));
     [ring | rewrite Ha, Hb, Hc; ring]).
Qed.

(** [atan2] recovers every angle of [(-PI, PI]] from its sine and cosine
    scaled by a positive factor. *)
Lemma atan2_sin_cos_full (k t : R) :
  0 < k -> - PI < t <= PI -> atan2 (k * sin t) (k * cos t) = t.
Proof.
  intros Hk [Hlo Hhi]. pose proof PI_RGT_0 as Hpi.
  destruct (Rlt_dec t (PI / 2)) as [Hr|Hr].
  - destruct (Rlt_dec (- (PI / 2)) t) as [Hl|Hl].
    + apply atan2_sin_cos; lra.
    + destruct (Req_dec t (- (PI / 2))) as [->|Hne].
      * rewrite cos_neg, sin_neg, cos_PI2, sin_PI2. unfold atan2.
        destruct (Rlt_dec 0 (k * 0)); [lra|].
        destruct (Rlt_dec (k * 0) 0); [lra|].
        destruct (Rlt_dec 0 (k * - (1))); [lra|].
        destruct (Rlt_dec (k * - (1)) 0); lra.
      * assert (Hc : cos t < 0).
        { rewrite <- cos_neg. apply cos_lt_0; lra. }
        assert (Hs : sin t < 0) by (apply sin_lt_0_var; lra).
        unfold atan2.
        destruct (Rlt_dec 0 (k * cos t)); [nra|].
        destruct (Rlt_dec (k * cos t) 0); [|nra].
        destruct (Rle_dec 0 (k * sin t)); [nra|].
        replace (k * sin t / (k * cos t)) with (tan (t + PI))
          by (unfold tan; rewrite neg_sin, neg_cos; field; lra).
        rewrite atan_tan by lra. ring.
  - destruct (Req_dec t (PI / 2)) as [->|Hne].
    + rewrite cos_PI2, sin_PI2. unfold atan2.
      destruct (Rlt_dec 0 (k * 0)); [lra|].
      destruct (Rlt_dec (k * 0) 0); [lra|].
      destruct (Rlt_dec 0 (k * 1)); lra.
    + assert (Hc : cos t < 0) by (apply cos_lt_0; lra).
      assert (Hs : 0 <= sin t) by (apply sin_ge_0; lra).
      unfold atan2.
      destruct (Rlt_dec 0 (k * cos t)); [nra|].
      destruct (Rlt_dec (k * cos t) 0); [|nra].
      destruct (Rle_dec 0 (k * sin t)); [|nra].
      assert (Es : sin (t - PI) = - sin t).
      { pose proof (neg_sin (t - PI)) as E.
        replace (t - PI + PI) with t in E by ring. lra. }
      assert (Ec : cos (t - PI) = - cos t).
      { pose proof (neg_cos (t - PI)) as E.
        replace (t - PI + PI) with t in E by ring. lra. }
      replace (k * sin t / (k * cos t)) with (tan (t - PI))
        by (unfold tan; rewrite Es, Ec; field; lra).
      rewrite atan_tan by lra. ring.
Qed.

(** X19: with the pitch [v(1)] strictly between [-PI/2] and [PI/2] and the
    two other angles anywhere in [(-PI, PI]], [quatToYpr(yprToQuat(v))] is
    [v], and [quatToRpy(rpyToQuat(v))] is [v] read backwards. *)
Theorem euler_roundtrips_full_turn (v : Vec3) :
  - PI < vx v <= PI ->
  - (PI / 2) < vy v < PI / 2 ->
  - PI < vz v <= PI ->
  quatToYpr (yprToQuat v) = v /\
  quatToRpy (rpyToQuat v) = V3 (vz v) (vy v) (vx v).
Proof.
  intros Hx Hy Hz.
  assert (Hc : 0 < cos (vy v)) by (apply cos_gt_0; lra).
  rewrite quatToYpr_yprToQuat_args, quatToRpy_rpyToQuat_args.
  rewrite !atan2_sin_cos_full by assumption.
  rewrite asin_sin by lra.
  destruct v; split; reflexivity.
Qed.

Lemma euler_roundtrips_full_turn_witness :
  quatToYpr (yprToQuat (V3 PI 0 (-3))) = V3 PI 0 (-3) /\
  quatToRpy (rpyToQuat (V3 PI 0 (-3))) = V3 (-3) 0 PI.
Proof.
  pose proof PI2_1 as Hp. pose proof PI2_3_2 as Hq.
  apply (euler_roundtrips_full_turn (V3 PI 0 (-3))); simpl; lra.
Defined.

(** X20: the guard of [rpyToEarInv] tests the cosine of the pitch, not its
    absolute value: where that cosine is negative (or positive and at most
    [1e-10]) the function returns the zero matrix although [rpyToEar(rpy)]
    has an inverse there. *)
Theorem rpyToEarInv_zero_though_invertible (rpy : Vec3) :
  cos (vget rpy 1) <= 1e-10 -> cos (vget rpy 1) <> 0 ->
  rpyToEarInv rpy = mzero /\
  exists B : Mat, forall i j : nat, (i < 3)%nat -> (j < 3)%nat ->
    mulMM3 B (rpyToEar rpy) i j = midentity i j.
Proof.
  intros Hle Hne. split; [now apply rpyToEarInv_guarded|].
  pose proof (sin_cos_one (vget rpy 2)) as Hy.
  set (cp := cos (vget rpy 1)) in *. set (sp := sin (vget rpy 1)).
  set (cy := cos (vget rpy 2)) in *. set (sy := sin (vget rpy 2)) in *.
  exists (mat3Of (cy / cp) (- sy / cp) 0 sy cy 0 (- cy * sp / cp) (sy * sp / cp) 1).
  intros i j Hi Hj. unfold mulMM3, rpyToEar, midentity, mat3Of.
  fold cp sp cy sy.
  index3 i j; simpl;
    first [ field; assumption
          | transitivity (sy * sy + cy * cy); [field; assumption | assumption]
          | transitivity (sp * (1 - (sy * sy + cy * cy)));
            [field; assumption | rewrite Hy; ring] ].
Qed.

Lemma rpyToEarInv_zero_though_invertible_witness :
  rpyToEarInv (V3 0 PI 0) = mzero.
Proof.
  apply (rpyToEarInv_zero_though_invertible (V3 0 PI 0)); simpl; rewrite cos_PI; lra.
Defined.

(** ** More on [rangePi] *)

Lemma rangePi_norm_le_PI (v : Vec3) : norm3 (rangePi v) <= PI.
Proof.
  destruct (Rle_dec (norm3 v) PI) as [Ha|Ha].
  - rewrite rangePi_small; assumption.
  - rewrite rangePi_norm_large by lra.
    pose proof (wrap_remainder (norm3 v)) as Hr.
    unfold Rabs. destruct (Rcase_abs _); lra.
Qed.

(** X21: in exact real arithmetic [rangePi] is idempotent; on doubles it is
    not: at [(15.707963267948964, 0, 0)] the first application returns
    [(-3.141592653589795, 0, 0)], of norm above [M_PI], and the second
    [(3.1415926535897913, 0, 0)]; at [(1e16, 0, 0)] the first returns norm 4
    and the second norm 2.2831853071795862. *)
Theorem rangePi_idempotent :
  (forall v : Vec3, rangePi (rangePi v) = rangePi v) /\
  Binary64.rangePi (Binary64.V3 Binary64.five_pi Binary64.zero Binary64.zero)
    = Binary64.V3 (PrimFloat.opp Binary64.above_pi)
                  (PrimFloat.opp Binary64.zero) (PrimFloat.opp Binary64.zero) /\
  Binary64.rangePi
    (Binary64.rangePi (Binary64.V3 Binary64.five_pi Binary64.zero Binary64.zero))
    = Binary64.V3 Binary64.below_pi Binary64.zero Binary64.zero /\
  Binary64.norm
    (Binary64.rangePi (Binary64.V3 Binary64.ten_to_16 Binary64.zero Binary64.zero))
    = Binary64.four /\
  Binary64.norm
    (Binary64.rangePi
       (Binary64.rangePi (Binary64.V3 Binary64.ten_to_16 Binary64.zero Binary64.zero)))
    = Binary64.wrapped_four.
Proof.
  split; [intros v; apply rangePi_small, rangePi_norm_le_PI|].
  repeat split; vm_compute; reflexivity.
Qed.





(** ** More on the manifold state *)

Lemma coeff_repeat_zero (n i : nat) : coeff (repeat 0 n) i = 0.
Proof. unfold coeff. apply nth_repeat. Qed.

Lemma block3_repeat_zero (n k : nat) : block3 (repeat 0 n) k = v3zero.
Proof. unfold block3. now rewrite !coeff_repeat_zero. Qed.

Lemma NrotVecToQuat_zero : NrotVecToQuat v3zero = NQuat_identity.
Proof.
  unfold NrotVecToQuat.
  assert (H0 : norm3 v3zero = 0) by (apply norm3_axis; lra).
  rewrite H0. destruct (Rle_dec 1e-10 0); [lra|].
  replace (0 / 2) with 0 by field. rewrite cos_0.
  unfold NQuat_normalize, nqget, v3zero, vget; cbn [q_ qget vx vy vz].
  assert (H1 : norm4 (Q4 0 0 0 1) = 1).
  { apply normSq4_norm4. unfold normSq4; simpl. ring. }
  rewrite H1. destruct (Rlt_dec 1e-10 1); [|lra].
  unfold NQuat_identity. cbn [qx qy qz qw].
  replace (0 / 1) with 0 by field. replace (1 / 1) with 1 by field.
  reflexivity.
Qed.

Lemma NQuat_mul_identity_l (q : NQuat) : NQuat_mul NQuat_identity q = q.
Proof.
  destruct q as [[x y z w]]. unfold NQuat_mul, NQuat_identity, nqget; simpl.
  f_equal; f_equal; ring.
Qed.

Lemma NQuat_mul_identity_r (q : NQuat) : NQuat_mul q NQuat_identity = q.
Proof.
  destruct q as [[x y z w]]. unfold NQuat_mul, NQuat_identity, nqget; simpl.
  f_equal; f_equal; ring.
Qed.

Lemma NQuat_mul_inverse_identity_r (q : NQuat) :
  NQuat_mul q (NQuat_inverse NQuat_identity) = q.
Proof.
  destruct q as [[x y z w]].
  unfold NQuat_mul, NQuat_inverse, NQuat_identity, quatInverse, nqget; simpl.
  f_equal; f_equal; ring.
Qed.

(** X23: the retraction by the zero tangent vector changes nothing: for a
    state [x] of shape [(N, M, L)], [x + 0] is [x], quaternion slots
    included. *)
Theorem LieG_plus_zero (N M L : nat) (x : LieG) :
  hasShape N M L x ->
  LieG_plus N M L x (repeat 0 (N + 3 * M + 3 * L)) = x.
Proof.
  intros (H1 & H2 & H3). destruct x as [sc ve qu]; simpl in *.
  unfold LieG_plus. f_equal.
  - apply map_seq_nth with (d := 0); [assumption|]. intros i Hi.
    rewrite coeff_repeat_zero. unfold scalarAt; simpl. ring.
  - apply map_seq_nth with (d := v3zero); [assumption|]. intros i Hi.
    rewrite block3_repeat_zero. unfold vectorAt; simpl.
    destruct (nth i ve v3zero). unfold v3add, v3zero; simpl. f_equal; ring.
  - apply map_seq_nth with (d := NQuat_identity); [assumption|]. intros i Hi.
    rewrite block3_repeat_zero, NrotVecToQuat_zero.
    unfold quatAt; simpl. apply NQuat_mul_identity_l.
Qed.

Lemma LieG_plus_zero_witness :
  LieG_plus 1 1 1 (mkLieG [7] [V3 1 2 3] [NQ (Q4 0.6 0 0 0.8)])
            (repeat 0 (1 + 3 * 1 + 3 * 1))
  = mkLieG [7] [V3 1 2 3] [NQ (Q4 0.6 0 0 0.8)].
Proof.
  apply (LieG_plus_zero 1 1 1). repeat split.
Defined.

Lemma LieG_plus_shape (NN MM LL : nat) (x : LieG) (d : LieA) :
  hasShape NN MM LL (LieG_plus NN MM LL x d).
Proof.
  unfold hasShape, LieG_plus; simpl. now rewrite !length_map, !length_seq.
Qed.

Lemma scalarAt_reset (N M L i : nat) : scalarAt (LieG_reset N M L) i = 0.
Proof. unfold scalarAt, LieG_reset; simpl. apply nth_repeat. Qed.

Lemma vectorAt_reset (N M L i : nat) : vectorAt (LieG_reset N M L) i = v3zero.
Proof. unfold vectorAt, LieG_reset; simpl. apply nth_repeat. Qed.

Lemma quatAt_reset (N M L i : nat) : quatAt (LieG_reset N M L) i = NQuat_identity.
Proof. unfold quatAt, LieG_reset; simpl. apply nth_repeat. Qed.

Lemma NquatToRotVec_NrotVecToQuat (v : Vec3) :
  NquatToRotVec (NrotVecToQuat v) = quatToRotVec (rotVecToQuat v).
Proof.
  rewrite NquatToRotVec_quatToRotVec, NrotVecToQuat_components. reflexivity.
Qed.

(** X24: from the state left by [reset], the difference undoes the
    retraction: for a tangent vector [d] of dimension [N+3M+3L] whose
    rotation blocks each have a norm below [PI] with
    [sin(norm/2) >= 1e-10], [(reset + d) - reset] is [d]. *)
Theorem LieG_reset_plus_minus (N M L : nat) (d : LieA) :
  length d = (N + 3 * M + 3 * L)%nat ->
  (forall i, (i < L)%nat ->
     norm3 (block3 d (N + M * 3 + i * 3)) < PI /\
     1e-10 <= sin (norm3 (block3 d (N + M * 3 + i * 3)) / 2)) ->
  LieG_minus (LieG_plus N M L (LieG_reset N M L) d) (LieG_reset N M L) = d.
Proof.
  intros Hd Hq.
  pose proof (LieG_plus_shape N M L (LieG_reset N M L) d) as Hy.
  pose proof (LieG_reset_shape N M L) as Hr.
  set (y := LieG_plus N M L (LieG_reset N M L) d) in *.
  assert (Hlen : length (LieG_minus y (LieG_reset N M L)) = (N + 3 * M + 3 * L)%nat)
    by (rewrite LieG_minus_length; now apply getDim_shape).
  apply nth_ext with (d := 0) (d' := 0); [now rewrite Hlen, Hd|].
  intros j Hj. rewrite Hlen in Hj.
  change (coeff (LieG_minus y (LieG_reset N M L)) j = coeff d j).
  destruct (Nat.lt_ge_cases j N) as [Hs|Hs].
  { rewrite (LieG_minus_scalar N M L y _ Hy Hr) by assumption.
    rewrite scalarAt_reset. unfold y, LieG_plus, scalarAt at 1; simpl.
    rewrite nth_map_seq by assumption. rewrite scalarAt_reset. ring. }
  destruct (Nat.lt_ge_cases j (N + M * 3)) as [Hv|Hv].
  { destruct (split_index N j Hs) as (i & k & -> & Hk).
    rewrite coeff_of_block3 with (v := block3 d (N + i * 3)); [| | assumption].
    - symmetry. now apply coeff_of_block3.
    - rewrite (LieG_minus_vector N M L y _ Hy Hr) by lia.
      rewrite vectorAt_reset. unfold y, LieG_plus, vectorAt at 1; simpl.
      rewrite nth_map_seq by lia. rewrite vectorAt_reset.
      destruct (block3 d (N + i * 3)). unfold v3sub, v3add, v3zero; simpl.
      f_equal; ring. }
  destruct (split_index (N + M * 3) j Hv) as (i & k & -> & Hk).
  rewrite coeff_of_block3 with (v := block3 d (N + M * 3 + i * 3)); [| | assumption].
  - symmetry. now apply coeff_of_block3.
  - assert (Hi : (i < L)%nat) by lia.
    rewrite (LieG_minus_quat N M L y _ Hy Hr) by assumption.
    rewrite quatAt_reset, NQuat_mul_inverse_identity_r.
    unfold y, LieG_plus, quatAt at 1; simpl.
    rewrite nth_map_seq by assumption. rewrite quatAt_reset, NQuat_mul_identity_r.
    rewrite NquatToRotVec_NrotVecToQuat.
    destruct (Hq i Hi) as [Hpi Hsin]. now apply roundtrip_exact.
Qed.

Lemma LieG_reset_plus_minus_witness :
  LieG_minus (LieG_plus 1 1 1 (LieG_reset 1 1 1) [7; 1; 2; 3; 1; 0; 0])
             (LieG_reset 1 1 1)
  = [7; 1; 2; 3; 1; 0; 0].
Proof.
  pose proof PI2_1 as Hp.
  assert (H1 : norm3 (V3 1 0 0) = 1) by (apply norm3_axis; lra).
  apply (LieG_reset_plus_minus 1 1 1); [reflexivity|].
  intros [|i] Hi; [|lia].
  change (block3 [7; 1; 2; 3; 1; 0; 0] (1 + 1 * 3 + 0 * 3)) with (V3 1 0 0).
  rewrite H1. split; [lra|].
  pose proof (sin_cubic_lower (1 / 2) ltac:(lra) ltac:(lra)). lra.
Defined.

(** ** Rotation matrix, rotation vector and the two multiplication matrices *)

(** X25: for a rotation vector [v] of norm [a >= 1e-10] the rotation matrix
    of [rotVecToQuat(v)] is the rotation by the angle [a] about the unit axis
    [u = v/a]: [cos(a)*I + sin(a)*vecToSqew(u) + (1 - cos(a))*u*u^T]. *)
Theorem quatToRotMat_rotVecToQuat (v : Vec3) :
  1e-10 <= norm3 v ->
  forall i j : nat, (i < 3)%nat -> (j < 3)%nat ->
    quatToRotMat (rotVecToQuat v) i j
    = cos (norm3 v) * midentity i j
      + sin (norm3 v) * vecToSqew (v3div v (norm3 v)) i j
      + (1 - cos (norm3 v)) * outer3 (v3div v (norm3 v)) (v3div v (norm3 v)) i j.
Proof.
  intros Ha i j Hi Hj.
  rewrite quatToRotMat_entries by assumption.
  rewrite rotVecToQuat_large by assumption.
  rewrite (sin_half (norm3 v)), (cos_half (norm3 v)).
  pose proof (sin_cos_one (norm3 v / 2)) as Hsc.
  set (a := norm3 v) in *. set (s := sin (a / 2)) in *. set (c := cos (a / 2)) in *.
  destruct v as [x y z].
  unfold midentity, vecToSqew, outer3, v3div, mat3Of, vget; cbn [qx qy qz qw vx vy vz].
  replace (c / 1) with c by field.
  replace (1 - (c * c - s * s)) with (2 * s * s) by lra.
  replace (2 * c * c - 1) with (c * c - s * s) by lra.
  index3 i j; simpl; field; lra.
Qed.

Lemma quatToRotMat_rotVecToQuat_witness :
  quatToRotMat (rotVecToQuat (V3 1 0 0)) 1%nat 2%nat
  = cos (norm3 (V3 1 0 0)) * midentity 1%nat 2%nat
    + sin (norm3 (V3 1 0 0)) * vecToSqew (v3div (V3 1 0 0) (norm3 (V3 1 0 0))) 1%nat 2%nat
    + (1 - cos (norm3 (V3 1 0 0)))
      * outer3 (v3div (V3 1 0 0) (norm3 (V3 1 0 0)))
               (v3div (V3 1 0 0) (norm3 (V3 1 0 0))) 1%nat 2%nat.
Proof.
  apply (quatToRotMat_rotVecToQuat (V3 1 0 0)); try lia.
  rewrite norm3_axis by lra. lra.
Defined.

(** X26: for a unit quaternion the rotation matrix is the matrix of the map
    that multiplies a vector, read as a quaternion of scalar part 0, by [q]
    on the left and by [quatInverse(q)] on the right. *)
Theorem quatToRotMat_sandwich (q : Quat) (x : Vec3) :
  norm4 q = 1 ->
  mulMV4 (quatL q) (mulMV4 (quatR (quatInverse q)) (Q4 (vx x) (vy x) (vz x) 0))
  = Q4 (vx (mulMV3 (quatToRotMat q) x)) (vy (mulMV3 (quatToRotMat q) x))
       (vz (mulMV3 (quatToRotMat q) x)) 0.
Proof.
  intros Hn. apply norm4_normSq4 in Hn.
  rewrite quatL_entries, quatR_entries. unfold mulMV3.
  rewrite !quatToRotMat_hom by (assumption || lia).
  destruct q as [a b c d], x as [x y z].
  unfold rotMatHom, mat3Of, quatInverse; simpl.
  f_equal; ring.
Qed.

Lemma quatToRotMat_sandwich_witness :
  mulMV4 (quatL (Q4 0.6 0 0 0.8))
         (mulMV4 (quatR (quatInverse (Q4 0.6 0 0 0.8))) (Q4 0 1 0 0))
  = Q4 (vx (mulMV3 (quatToRotMat (Q4 0.6 0 0 0.8)) (V3 0 1 0)))
       (vy (mulMV3 (quatToRotMat (Q4 0.6 0 0 0.8)) (V3 0 1 0)))
       (vz (mulMV3 (quatToRotMat (Q4 0.6 0 0 0.8)) (V3 0 1 0))) 0.
Proof.
  apply (quatToRotMat_sandwich (Q4 0.6 0 0 0.8) (V3 0 1 0)).
  apply normSq4_norm4. unfold normSq4; simpl. lra.
Defined.

(** ** The double cover *)




(** ** The difference and the retraction, slot by slot *)




Section SlotBySlot.
Variables N M L : nat.
Variables x y : LieG.
Hypothesis Hx : hasShape N M L x.
Hypothesis Hy : hasShape N M L y.


End SlotBySlot.





